(** * The offline operation queue of the KOFA mobile client

    A shallow embedding of [mobile/lib/offlineQueue.ts].  The class
    [OfflineQueue] is asynchronous: every method is an [async] function that
    runs synchronously up to its next [await] and is resumed when the awaited
    platform call (AsyncStorage, fetch) completes.  The embedding keeps that
    structure: a [World] holds the fields of the singleton, the persisted
    entry under [QUEUE_KEY], and the suspended method activations ([Task]);
    the environment drives it through [Label]s (a method call, a NetInfo
    event, the completion of a pending storage call or fetch).

    Conventions.  An AsyncStorage call takes effect, and a read sees the
    entry, at the moment it completes.  An [await] on a promise that is
    already settled (an [executeOperation] that threw before its [fetch])
    is not a point where the environment can move: the call runs on to its
    next platform call.  The persisted JSON text is kept as the array it
    parses to.  Line numbers refer to [offlineQueue.ts]. *)

From Stdlib Require Import ZArith Lia.
From stdpp Require Import gmap strings list pretty.

(** ** Data model *)

Definition QUEUE_KEY : string := "@kofa_offline_queue".
Definition API_BASE : string := "https://kofa-dhko.onrender.com".

(** The [payload: any] field.  Payloads travel through
    [JSON.stringify]/[JSON.parse], so they range over JSON values; [None]
    stands for [undefined] (a field [JSON.stringify] leaves out). *)
#[local] Unset Elimination Schemes.
Inductive json : Type :=
| JNull
| JBool (b : bool)
| JNum (n : Z)
| JStr (s : string)
| JArr (items : list json)
| JObj (fields : list (string * json)).
#[local] Set Elimination Schemes.

Definition any : Type := option json.

(** interface QueuedOperation (lines 10-16).  [type] is kept as the string it
    is at run time: the union type of line 12 constrains the callers of
    [enqueue], while the dispatcher of line 152 compares strings. *)
Record QueuedOperation : Type := mkOp {
  id : string;
  type : string;
  payload : any;
  timestamp : Z;
  retries : nat
}.

(** The five members of the union type on line 12. *)
Definition declared_types : list string :=
  ["create_product"; "update_product"; "restock"; "create_order"; "log_expense"]%string.

(** What a [catch] can receive in this file. *)
Inductive Error : Type :=
| TypeError                          (* member access on null or undefined *)
| UnknownOperationType (t : string)  (* line 180 *)
| FetchRejected                      (* the promise of [fetch] rejected *)
| StorageError.                      (* an AsyncStorage promise rejected *)

(** [v.k] for the two member names the dispatcher reads, "id" and
    "quantity": a TypeError on null and undefined, the field of an object,
    [undefined] on every other JSON value. *)
Definition member (v : any) (k : string) : Error + any :=
  match v with
  | None | Some JNull => inl TypeError
  | Some (JObj fields) =>
      inr (snd <$> List.find (fun kv => String.eqb (fst kv) k) fields)
  | Some _ => inr None
  end.

(** The requests [executeOperation] hands to [fetch].  The URL keeps the
    values interpolated into the template string instead of their text. *)
Inductive Method : Type := POST | PUT.

Inductive Url : Type :=
| UrlProducts                        (* `${API_BASE}/products` *)
| UrlProduct (pid : any)             (* `${API_BASE}/products/${payload.id}` *)
| UrlRestock (pid quantity : any)    (* `.../products/${id}/restock?quantity=${quantity}` *)
| UrlExpensesLog.                    (* `${API_BASE}/expenses/log` *)

Record Request : Type := mkRequest {
  url : Url;
  method : Method;
  json_content_type : bool;   (* headers: { 'Content-Type': 'application/json' } *)
  body : any                  (* JSON.stringify(operation.payload), when given *)
}.

(** How a [fetch] ends: the promise resolves with a response of some HTTP
    status, or it rejects (no network, or the platform gave up waiting). *)
Inductive Rejection : Type := NetworkFailure | TimedOut.

Inductive FetchOutcome : Type :=
| Responded (status : Z)
| Failed (why : Rejection).

Definition is_2xx (status : Z) : bool := (200 <=? status)%Z && (status <=? 299)%Z.

(** ** executeOperation (lines 149-182)

    The function is split at its only suspension point, the [await fetch].
    [executeOperation_request] is the switch up to the call of [fetch]:
    the request of the branch taken, or what was thrown before any request. *)
Definition executeOperation_request (operation : QueuedOperation) : Error + Request :=
  if String.eqb (type operation) "create_product" then
    inr (mkRequest UrlProducts POST true (payload operation))
  else if String.eqb (type operation) "update_product" then
    match member (payload operation) "id" with
    | inl e => inl e
    | inr pid => inr (mkRequest (UrlProduct pid) PUT true (payload operation))
    end
  else if String.eqb (type operation) "restock" then
    match member (payload operation) "id" with
    | inl e => inl e
    | inr pid =>
        match member (payload operation) "quantity" with
        | inl e => inl e
        | inr quantity => inr (mkRequest (UrlRestock pid quantity) POST false None)
        end
    end
  else if String.eqb (type operation) "log_expense" then
    inr (mkRequest UrlExpensesLog POST true (payload operation))
  else
    inl (UnknownOperationType (type operation)).

(** The [case] labels of the switch in executeOperation (lines 153-172). *)
Definition dispatched_types : list string :=
  ["create_product"; "update_product"; "restock"; "log_expense"]%string.

(** After the [await]: the response is discarded and the branch ends in
    [break]; a rejected [fetch] is rethrown by the [await]. *)
Definition executeOperation_settle (out : FetchOutcome) : Error + unit :=
  match out with
  | Responded _ => inr tt
  | Failed _ => inl FetchRejected
  end.

(** The whole call, for an operation whose [fetch] (if it gets that far)
    ends as [out]. *)
Definition executeOperation (operation : QueuedOperation) (out : FetchOutcome)
  : Error + unit :=
  match executeOperation_request operation with
  | inl e => inl e
  | inr _ => executeOperation_settle out
  end.

(** ** The world *)

Inductive Value : Type :=
| VId (s : string)
| VQueue (queue : list QueuedOperation)
| VCount (n : nat)
| VTally (success failed : nat)     (* { success, failed } *)
| VVoid.

Inductive Settled : Type :=
| Resolved (v : Value)
| Rejected (e : Error).

Inductive Api : Type :=
| ApiEnqueue | ApiGetQueue | ApiGetPendingCount | ApiProcessQueue | ApiClearQueue.

Inductive LogLine : Type :=
| LogEnqueued (ty ident : string)    (* line 75 *)
| LogReadError                       (* line 93 *)
| LogSynced (ty ident : string)      (* line 126 *)
| LogFailedAfter3 (ident : string).  (* line 133 *)

(** What the queue does to the outside, in the order it does it. *)
Inductive Event : Type :=
| EvCall (tid : nat) (what : Api)
| EvGetItem (tid : nat)                              (* AsyncStorage.getItem(QUEUE_KEY) *)
| EvSetItem (tid : nat) (data : list QueuedOperation) (* AsyncStorage.setItem(QUEUE_KEY, ..) *)
| EvRemoveItem (tid : nat)                           (* AsyncStorage.removeItem(QUEUE_KEY) *)
| EvExecute (tid : nat) (operation : QueuedOperation) (* executeOperation entered *)
| EvFetch (tid : nat) (req : Request)
| EvNotify (callback : nat) (online : bool)          (* listener(this.isOnline) *)
| EvConsole (line : LogLine)
| EvSettle (tid : nat) (result : Settled).           (* the promise of call [tid] settles *)

(** A suspended activation of an async method, named after the [await]
    it is parked at. *)
Inductive Task : Type :=
| EnqueueGet (operation : QueuedOperation)                        (* line 71 *)
| EnqueueSet (operation : QueuedOperation) (queue : list QueuedOperation) (* line 73 *)
| GetQueueGet                                                     (* line 90 *)
| PendingCountGet                                                 (* line 102 *)
| ProcessGet                                                      (* line 119 *)
| ProcessFetch (operation : QueuedOperation)
               (rest remaining : list QueuedOperation)
               (success failed : nat)                             (* line 124 *)
| ProcessSet (remaining : list QueuedOperation) (success failed : nat) (* line 138 *)
| ClearRemove.                                                    (* line 188 *)

(** The singleton of line 193 with its surroundings.  [listeners] holds the
    subscribed callbacks by identity; callbacks have the type
    [(isOnline: boolean) => void] and are recorded as [EvNotify] events.
    [storage] is the entry under [QUEUE_KEY] ([None]: no entry), kept as the
    array it is the JSON text of.  [trace] is oldest first. *)
Record World : Type := mkWorld {
  isOnline : bool;
  syncInProgress : bool;
  listeners : list nat;
  storage : option (list QueuedOperation);
  tasks : gmap nat Task;
  next_task : nat;
  trace : list Event
}.

(** [new OfflineQueue()], lines 19-25. *)
Definition init (stored : option (list QueuedOperation)) : World :=
  mkWorld true false [] stored ∅ 0 [].

Definition set_isOnline (b : bool) (w : World) : World :=
  mkWorld b (syncInProgress w) (listeners w) (storage w) (tasks w) (next_task w) (trace w).
Definition set_syncInProgress (b : bool) (w : World) : World :=
  mkWorld (isOnline w) b (listeners w) (storage w) (tasks w) (next_task w) (trace w).
Definition set_listeners (ls : list nat) (w : World) : World :=
  mkWorld (isOnline w) (syncInProgress w) ls (storage w) (tasks w) (next_task w) (trace w).
Definition set_storage (s : option (list QueuedOperation)) (w : World) : World :=
  mkWorld (isOnline w) (syncInProgress w) (listeners w) s (tasks w) (next_task w) (trace w).
Definition set_tasks (ts : gmap nat Task) (w : World) : World :=
  mkWorld (isOnline w) (syncInProgress w) (listeners w) (storage w) ts (next_task w) (trace w).
Definition emits (evs : list Event) (w : World) : World :=
  mkWorld (isOnline w) (syncInProgress w) (listeners w) (storage w) (tasks w) (next_task w)
          (trace w ++ evs).
Definition emit (e : Event) (w : World) : World := emits [e] w.

(** A call of an async method gets the next task number. *)
Definition begin_call (what : Api) (w : World) : World :=
  mkWorld (isOnline w) (syncInProgress w) (listeners w) (storage w) (tasks w)
          (S (next_task w)) (trace w ++ [EvCall (next_task w) what]).

Definition suspend (tid : nat) (k : Task) (w : World) : World :=
  set_tasks (<[tid := k]> (tasks w)) w.

Definition settle (tid : nat) (r : Settled) (w : World) : World :=
  emit (EvSettle tid r) (set_tasks (delete tid (tasks w)) w).

(** The array the persisted entry denotes: [data ? JSON.parse(data) : []]. *)
Definition stored (w : World) : list QueuedOperation := default [] (storage w).

(** ** The methods of [OfflineQueue] *)

(** getQueue (lines 88-96), resumed when its [getItem] completes: the parsed
    entry, or [[]] when there is none; a rejected read is logged and [[]] is
    returned instead (the [catch] of line 92). *)
Definition getQueue_resume (ok : bool) (w : World) : list QueuedOperation * World :=
  if ok then (stored w, w)
  else ([], emit (EvConsole LogReadError) w).

(** The [catch] block of processQueue, lines 128-134: the operation object
    is mutated ([retries++]) and the same object is pushed on [remaining].
    Returns the new [remaining] and [failed], and what was logged. *)
Definition retried (operation : QueuedOperation) : QueuedOperation :=
  mkOp (id operation) (type operation) (payload operation) (timestamp operation)
       (S (retries operation)).

Definition processQueue_catch (operation : QueuedOperation)
    (remaining : list QueuedOperation) (failed : nat)
  : list QueuedOperation * nat * list Event :=
  if retries (retried operation) <? 3 then
    (remaining ++ [retried operation], failed, [])
  else
    (remaining, S failed, [EvConsole (LogFailedAfter3 (id operation))]).

(** The [for] loop of lines 122-136 from the operation it is about to
    execute, up to its next suspension: the [await] of a [fetch] inside
    [executeOperation] (line 124), or, once the queue is exhausted, the
    [setItem] of line 138.  An operation for which [executeOperation] throws
    before any [fetch] goes through the [catch] at once.  The result is what
    happened on the way (oldest first) and where the call is parked. *)
Fixpoint processQueue_loop (tid : nat) (queue remaining : list QueuedOperation)
    (success failed : nat) : list Event * Task :=
  match queue with
  | [] => ([EvSetItem tid remaining], ProcessSet remaining success failed)
  | operation :: rest =>
      match executeOperation_request operation with
      | inl _ =>
          let '(remaining, failed, logged) := processQueue_catch operation remaining failed in
          let '(evs, k) := processQueue_loop tid rest remaining success failed in
          (EvExecute tid operation :: logged ++ evs, k)
      | inr req =>
          ([EvExecute tid operation; EvFetch tid req],
           ProcessFetch operation rest remaining success failed)
      end
  end.

(** After the [await] of line 124. *)
Definition processQueue_fetched (tid : nat) (operation : QueuedOperation)
    (rest remaining : list QueuedOperation) (success failed : nat)
    (out : FetchOutcome) : list Event * Task :=
  match executeOperation_settle out with
  | inr _ =>
      let '(evs, k) := processQueue_loop tid rest remaining (S success) failed in
      (EvConsole (LogSynced (type operation) (id operation)) :: evs, k)
  | inl _ =>
      let '(remaining, failed, logged) := processQueue_catch operation remaining failed in
      let '(evs, k) := processQueue_loop tid rest remaining success failed in
      (logged ++ evs, k)
  end.

(** Call [tid] did [evs] and is parked at [k]. *)
Definition proceed (tid : nat) (r : list Event * Task) (w : World) : World :=
  suspend tid (snd r) (emits (fst r) w).

(** processQueue (lines 109-144), from the call to its first [await]. *)
Definition processQueue (w : World) : World :=
  let tid := next_task w in
  let w := begin_call ApiProcessQueue w in
  if syncInProgress w || negb (isOnline w) then
    settle tid (Resolved (VTally 0 0)) w
  else
    suspend tid ProcessGet (emit (EvGetItem tid) (set_syncInProgress true w)).

(** After the [await] of line 138: the [finally] of line 139 runs on both
    ways out; a rejected [setItem] rejects the call. *)
Definition processQueue_written (tid : nat) (remaining : list QueuedOperation)
    (success failed : nat) (ok : bool) (w : World) : World :=
  if ok then
    settle tid (Resolved (VTally success failed))
      (set_syncInProgress false (set_storage (Some remaining) w))
  else
    settle tid (Rejected StorageError) (set_syncInProgress false w).

(** enqueue (lines 62-83).  [now_id] and [now_ts] are the two readings of
    [Date.now()], [rnd] the nine characters cut from [Math.random()]. *)
Definition new_operation (ty : string) (p : any) (now_id : Z) (rnd : string) (now_ts : Z)
  : QueuedOperation :=
  mkOp (pretty now_id +:+ "_" +:+ rnd) ty p now_ts 0.

Definition enqueue (ty : string) (p : any) (now_id : Z) (rnd : string) (now_ts : Z)
    (w : World) : World :=
  let tid := next_task w in
  let operation := new_operation ty p now_id rnd now_ts in
  suspend tid (EnqueueGet operation) (emit (EvGetItem tid) (begin_call ApiEnqueue w)).

Definition enqueue_read (tid : nat) (operation : QueuedOperation) (ok : bool)
    (w : World) : World :=
  let '(queue, w) := getQueue_resume ok w in
  let queue := queue ++ [operation] in
  suspend tid (EnqueueSet operation queue) (emit (EvSetItem tid queue) w).

Definition enqueue_written (tid : nat) (operation : QueuedOperation)
    (queue : list QueuedOperation) (ok : bool) (w : World) : World :=
  if ok then
    let w := set_storage (Some queue) w in
    let w := emit (EvConsole (LogEnqueued (type operation) (id operation))) w in
    let w := if isOnline w then processQueue w else w in
    settle tid (Resolved (VId (id operation))) w
  else
    settle tid (Rejected StorageError) w.

(** getQueue and getPendingCount called from outside (lines 88-104). *)
Definition getQueue (w : World) : World :=
  let tid := next_task w in
  suspend tid GetQueueGet (emit (EvGetItem tid) (begin_call ApiGetQueue w)).

Definition getPendingCount (w : World) : World :=
  let tid := next_task w in
  suspend tid PendingCountGet (emit (EvGetItem tid) (begin_call ApiGetPendingCount w)).

(** clearQueue (lines 187-189). *)
Definition clearQueue (w : World) : World :=
  let tid := next_task w in
  suspend tid ClearRemove (emit (EvRemoveItem tid) (begin_call ApiClearQueue w)).

(** onNetworkChange (lines 45-50) and the closure it returns. *)
Definition onNetworkChange (callback : nat) (w : World) : World :=
  set_listeners (listeners w ++ [callback]) w.

Definition unsubscribe (callback : nat) (w : World) : World :=
  set_listeners (List.filter (fun l => negb (Nat.eqb l callback)) (listeners w)) w.

Definition getIsOnline (w : World) : bool := isOnline w.

(** The NetInfo listener installed by initNetworkListener (lines 28-39);
    [isConnected] is [state.isConnected], of type [boolean | null]. *)
Definition netInfoListener (isConnected : option bool) (w : World) : World :=
  let wasOffline := negb (isOnline w) in
  let w := set_isOnline (default true isConnected) w in
  let w := emits (List.map (fun listener => EvNotify listener (isOnline w)) (listeners w)) w in
  if wasOffline && isOnline w then processQueue w else w.

(** ** The environment *)

Inductive Label : Type :=
| NetInfoEvent (isConnected : option bool)
| Subscribe (callback : nat)
| Unsubscribe (callback : nat)
| CallEnqueue (ty : string) (p : any) (now_id : Z) (rnd : string) (now_ts : Z)
| CallGetQueue
| CallGetPendingCount
| CallProcessQueue
| CallClearQueue
| StorageDone (tid : nat) (ok : bool)       (* the AsyncStorage call of [tid] completes *)
| FetchDone (tid : nat) (out : FetchOutcome). (* the fetch of [tid] completes *)

(** A storage call takes effect when it completes. *)
Definition storage_done (tid : nat) (k : Task) (ok : bool) (w : World) : option World :=
  match k with
  | EnqueueGet operation => Some (enqueue_read tid operation ok w)
  | EnqueueSet operation queue => Some (enqueue_written tid operation queue ok w)
  | GetQueueGet =>
      let '(queue, w) := getQueue_resume ok w in
      Some (settle tid (Resolved (VQueue queue)) w)
  | PendingCountGet =>
      let '(queue, w) := getQueue_resume ok w in
      Some (settle tid (Resolved (VCount (length queue))) w)
  | ProcessGet =>
      let '(queue, w) := getQueue_resume ok w in
      Some (proceed tid (processQueue_loop tid queue [] 0 0) w)
  | ProcessSet remaining success failed =>
      Some (processQueue_written tid remaining success failed ok w)
  | ClearRemove =>
      if ok then Some (settle tid (Resolved VVoid) (set_storage None w))
      else Some (settle tid (Rejected StorageError) w)
  | ProcessFetch _ _ _ _ _ => None
  end.

Definition fetch_done (tid : nat) (k : Task) (out : FetchOutcome) (w : World)
  : option World :=
  match k with
  | ProcessFetch operation rest remaining success failed =>
      Some (proceed tid
              (processQueue_fetched tid operation rest remaining success failed out) w)
  | _ => None
  end.

(** One move of the environment; [None] when nothing is waiting for it. *)
Definition step (w : World) (l : Label) : option World :=
  match l with
  | NetInfoEvent isConnected => Some (netInfoListener isConnected w)
  | Subscribe callback => Some (onNetworkChange callback w)
  | Unsubscribe callback => Some (unsubscribe callback w)
  | CallEnqueue ty p now_id rnd now_ts => Some (enqueue ty p now_id rnd now_ts w)
  | CallGetQueue => Some (getQueue w)
  | CallGetPendingCount => Some (getPendingCount w)
  | CallProcessQueue => Some (processQueue w)
  | CallClearQueue => Some (clearQueue w)
  | StorageDone tid ok =>
      match tasks w !! tid with
      | Some k => storage_done tid k ok w
      | None => None
      end
  | FetchDone tid out =>
      match tasks w !! tid with
      | Some k => fetch_done tid k out w
      | None => None
      end
  end.

Fixpoint run (w : World) (ls : list Label) : option World :=
  match ls with
  | [] => Some w
  | l :: ls' =>
      match step w l with
      | Some w' => run w' ls'
      | None => None
      end
  end.

(** Worlds the singleton can be in: reached from [new OfflineQueue()] over
    some persisted entry by moves of the environment. *)
Inductive reachable : World -> Prop :=
| reachable_init (s : option (list QueuedOperation)) : reachable (init s)
| reachable_step (w w' : World) (l : Label) :
    reachable w -> step w l = Some w' -> reachable w'.

(** ** Reading the trace *)

(** How the promise of call [tid] settled, if it has. *)
Definition settlement (tid : nat) (tr : list Event) : option Settled :=
  last (flat_map (fun e => match e with
                           | EvSettle t r => if Nat.eqb t tid then [r] else []
                           | _ => []
                           end) tr).

(** The operations call [tid] passed to [executeOperation], in order. *)
Definition executions (tid : nat) (tr : list Event) : list QueuedOperation :=
  flat_map (fun e => match e with
                     | EvExecute t operation => if Nat.eqb t tid then [operation] else []
                     | _ => []
                     end) tr.

(** The number of AsyncStorage calls issued so far. *)
Definition is_storage_call (e : Event) : bool :=
  match e with
  | EvGetItem _ | EvSetItem _ _ | EvRemoveItem _ => true
  | _ => false
  end.

Definition storage_calls (tr : list Event) : nat := length (List.filter is_storage_call tr).

(** The calls of processQueue started so far. *)
Definition is_processQueue_call (e : Event) : bool :=
  match e with
  | EvCall _ ApiProcessQueue => true
  | _ => false
  end.

Definition processQueue_calls (tr : list Event) : nat :=
  length (List.filter is_processQueue_call tr).

(** A replay pass is in flight while its call is parked at one of the three
    [await]s of processQueue. *)
Definition is_pass (k : Task) : bool :=
  match k with
  | ProcessGet | ProcessFetch _ _ _ _ _ | ProcessSet _ _ _ => true
  | _ => false
  end.

Definition pass_in_flight (w : World) : Prop :=
  exists tid k, tasks w !! tid = Some k /\ is_pass k = true.

(** ** What a replay pass leaves, in closed form

    An [Attempt] pairs an operation of the snapshot with the way its [fetch]
    ends if [executeOperation] gets as far as calling it. *)
Definition Attempt : Type := QueuedOperation * FetchOutcome.

Definition succeeds (a : Attempt) : bool :=
  match executeOperation (fst a) (snd a) with
  | inr _ => true
  | inl _ => false
  end.

Definition retains (a : Attempt) : bool :=
  negb (succeeds a) && (retries (retried (fst a)) <? 3).

Definition drops (a : Attempt) : bool :=
  negb (succeeds a) && negb (retries (retried (fst a)) <? 3).

Definition kept (attempts : list Attempt) : list QueuedOperation :=
  List.map (fun a => retried (fst a)) (List.filter retains attempts).

Definition synced (attempts : list Attempt) : nat :=
  length (List.filter succeeds attempts).

Definition dropped (attempts : list Attempt) : nat :=
  length (List.filter drops attempts).

(** ** Schedules *)

(** The completions a replay pass [tid] waits for, when nothing else happens
    in between: its read, one [fetch] per operation that reaches one, its
    write. *)
Definition fetch_labels (tid : nat) (attempts : list Attempt) : list Label :=
  flat_map (fun a => match executeOperation_request (fst a) with
                     | inr _ => [FetchDone tid (snd a)]
                     | inl _ => []
                     end) attempts.

Definition pass_labels (tid : nat) (attempts : list Attempt) : list Label :=
  StorageDone tid true :: fetch_labels tid attempts ++ [StorageDone tid true].

(** A call of processQueue run to completion. *)
Definition replay_pass (w : World) (attempts : list Attempt) : option World :=
  run w (CallProcessQueue :: pass_labels (next_task w) attempts).

(** The arguments of a call of enqueue together with what the clock and the
    random generator return during it. *)
Record EnqueueCall : Type := mkCall {
  call_type : string;
  call_payload : any;
  call_now_id : Z;
  call_rnd : string;
  call_now_ts : Z
}.

Definition operation_of (c : EnqueueCall) : QueuedOperation :=
  new_operation (call_type c) (call_payload c) (call_now_id c) (call_rnd c) (call_now_ts c).

(** [await enqueue(..)]: the call, then the completion of its read and of
    its write, each succeeding or not. *)
Definition enqueue_labels (tid : nat) (c : EnqueueCall) (read_ok write_ok : bool)
  : list Label :=
  [CallEnqueue (call_type c) (call_payload c) (call_now_id c) (call_rnd c) (call_now_ts c);
   StorageDone tid read_ok; StorageDone tid write_ok].

(** A sequence of awaited enqueue calls over a working storage, the first of
    them numbered [tid]. *)
Fixpoint enqueue_all (tid : nat) (calls : list EnqueueCall) : list Label :=
  match calls with
  | [] => []
  | c :: calls' => enqueue_labels tid c true true ++ enqueue_all (S tid) calls'
  end.

(** The outcomes delivered to the fetches of call [tid] by a schedule. *)
Definition fetches (tid : nat) (ls : list Label) : list FetchOutcome :=
  flat_map (fun l => match l with
                     | FetchDone t out => if Nat.eqb t tid then [out] else []
                     | _ => []
                     end) ls.

Definition completes (tid : nat) (l : Label) : bool :=
  match l with
  | StorageDone t _ => Nat.eqb t tid
  | _ => false
  end.

(** Where a pass is parked after its fetches ended as [outs], as a function
    of the snapshot it read. *)
Definition deliver (tid : nat) (k : Task) (out : FetchOutcome) : Task :=
  match k with
  | ProcessFetch operation rest remaining success failed =>
      snd (processQueue_fetched tid operation rest remaining success failed out)
  | _ => k
  end.

Definition parked_after (tid : nat) (snapshot : list QueuedOperation)
    (outs : list FetchOutcome) : Task :=
  fold_left (deliver tid) outs (snd (processQueue_loop tid snapshot [] 0 0)).

(** The queue a pass parked at its [setItem] is about to write. *)
Definition to_write (k : Task) : option (list QueuedOperation) :=
  match k with
  | ProcessSet remaining _ _ => Some remaining
  | _ => None
  end.

(** Everything in [remaining] is an operation of the snapshot after
    [retries++]; [pass_inv] says so of a pass parked inside or after its
    loop. *)
Definition origin (snapshot remaining : list QueuedOperation) : Prop :=
  forall x, In x remaining -> exists y, In y snapshot /\ x = retried y.

Definition pass_inv (snapshot : list QueuedOperation) (k : Task) : Prop :=
  match k with
  | ProcessFetch operation rest remaining _ _ =>
      incl (operation :: rest) snapshot /\ origin snapshot remaining
  | ProcessSet remaining _ _ => origin snapshot remaining
  | _ => False
  end.

(** ** Well-formed worlds *)

Definition event_tid (e : Event) : option nat :=
  match e with
  | EvCall t _ | EvGetItem t | EvSetItem t _ | EvRemoveItem t
  | EvExecute t _ | EvFetch t _ | EvSettle t _ => Some t
  | EvNotify _ _ | EvConsole _ => None
  end.

Record wf (w : World) : Prop := mkWf {
  wf_tasks : forall tid k, tasks w !! tid = Some k -> tid < next_task w;
  wf_trace : forall e tid, In e (trace w) -> event_tid e = Some tid -> tid < next_task w;
  wf_idle : syncInProgress w = false ->
            forall tid k, tasks w !! tid = Some k -> is_pass k = false;
  wf_single : forall t1 t2 k1 k2,
      tasks w !! t1 = Some k1 -> is_pass k1 = true ->
      tasks w !! t2 = Some k2 -> is_pass k2 = true -> t1 = t2
}.

(** A world in which a call of processQueue passes the guard of line 110. *)
Definition ready (w : World) : Prop :=
  reachable w /\ syncInProgress w = false /\ isOnline w = true.

(** ** Sample data *)

Definition sample_expense : QueuedOperation :=
  mkOp "1700000000000_k3j9x0q2a" "log_expense"
       (Some (JObj [("amount"%string, JNum 5000); ("description"%string, JStr "fuel")]))
       1700000000000 0.

Definition sample_restock : QueuedOperation :=
  mkOp "1700000000500_p0o9i8u7y" "restock"
       (Some (JObj [("id"%string, JStr "p-17"); ("quantity"%string, JNum 4)]))
       1700000000500 0.

Definition sample_order : QueuedOperation :=
  mkOp "1700000000900_z1x2c3v4b" "create_order"
       (Some (JObj [("product"%string, JStr "p-17")])) 1700000000900 0.

(** A pass racing with an enqueue: the pass has read [[sample_expense]]
    and waits for its fetch; an enqueue of a restock is called, reads,
    writes (and its own processQueue call gives way); then the fetch of the
    pass times out. *)
Definition world_of (o : option World) : World := default (init None) o.

Definition race_start : World := processQueue (init (Some [sample_expense])).

Definition race_read : World := world_of (step race_start (StorageDone 0 true)).

Definition race_labels : list Label :=
  [CallEnqueue "restock" (payload sample_restock) 1700000000500 "p0o9i8u7y" 1700000000500;
   StorageDone 1 true; StorageDone 1 true; FetchDone 0 (Failed TimedOut)].

Definition race_before_write : World := world_of (run race_read race_labels).

Definition race_end : World := world_of (step race_before_write (StorageDone 0 true)).

(** ** Further readings of the trace *)

(** The arrays call [tid] passed to [AsyncStorage.setItem], in order. *)
Definition writes (tid : nat) (tr : list Event) : list (list QueuedOperation) :=
  flat_map (fun e => match e with
                     | EvSetItem t data => if Nat.eqb t tid then [data] else []
                     | _ => []
                     end) tr.

(** The lines written to the console, in order. *)
Definition console (tr : list Event) : list LogLine :=
  flat_map (fun e => match e with
                     | EvConsole line => [line]
                     | _ => []
                     end) tr.



(** ** Schedules in which calls overlap *)

(** Two enqueue calls made back to back, neither awaited: both reads
    complete before either write. *)
Definition overlapping_enqueues (tid : nat) (c1 c2 : EnqueueCall) : list Label :=
  [CallEnqueue (call_type c1) (call_payload c1) (call_now_id c1) (call_rnd c1) (call_now_ts c1);
   CallEnqueue (call_type c2) (call_payload c2) (call_now_id c2) (call_rnd c2) (call_now_ts c2);
   StorageDone tid true; StorageDone (S tid) true;
   StorageDone tid true; StorageDone (S tid) true].

Definition expense_call : EnqueueCall :=
  mkCall "log_expense" (payload sample_expense) 1700000000000 "k3j9x0q2a" 1700000000000.

Definition restock_call : EnqueueCall :=
  mkCall "restock" (payload sample_restock) 1700000000500 "p0o9i8u7y" 1700000000500.

Definition offline_world : World := netInfoListener (Some false) (init None).


(** ** Further readings of the state *)


(** The requests call [tid] handed to [fetch], in order. *)
Definition requests (tid : nat) (tr : list Event) : list Request :=
  flat_map (fun e => match e with
                     | EvFetch t req => if Nat.eqb t tid then [req] else []
                     | _ => []
                     end) tr.

(** [isOnline] after a schedule: what the last NetInfo event said. *)
Definition last_reported (online : bool) (ls : list Label) : bool :=
  fold_left (fun b l => match l with
                        | NetInfoEvent isConnected => default true isConnected
                        | _ => b
                        end) ls online.

(** A call parked at a [setItem] or [removeItem]. *)
Definition is_write (k : Task) : bool :=
  match k with
  | EnqueueSet _ _ | ProcessSet _ _ _ | ClearRemove => true
  | _ => false
  end.


(** The data-model bound on a queue: every entry has fewer than 3 retries;
    and the same of the arrays a parked call carries. *)
Definition within_budget (queue : list QueuedOperation) : Prop :=
  forall x, In x queue -> retries x < 3.

Definition task_budget (k : Task) : Prop :=
  match k with
  | EnqueueGet operation => retries operation < 3
  | EnqueueSet _ queue => within_budget queue
  | ProcessFetch _ _ remaining _ _ => within_budget remaining
  | ProcessSet remaining _ _ => within_budget remaining
  | _ => True
  end.

Definition budget_inv (w : World) : Prop :=
  within_budget (stored w)
  /\ forall tid k, tasks w !! tid = Some k -> task_budget k.

(** What one iteration of the loop of processQueue shows to the outside. *)
Definition attempt_events (tid : nat) (a : Attempt) : list Event :=
  EvExecute tid (fst a)
  :: match executeOperation_request (fst a) with
     | inr req => [EvFetch tid req]
     | inl _ => []
     end
  ++ (if succeeds a then [EvConsole (LogSynced (type (fst a)) (id (fst a)))]
      else if drops a then [EvConsole (LogFailedAfter3 (id (fst a)))]
      else []).

(** A replay pass whose final [setItem] is rejected. *)
Definition failed_write_labels (tid : nat) (attempts : list Attempt) : list Label :=
  StorageDone tid true :: fetch_labels tid attempts ++ [StorageDone tid false].

Definition sample_calls : list EnqueueCall := [expense_call; restock_call].


(** The request an attempt makes, if [executeOperation] gets that far. *)
Definition request_of (a : Attempt) : list Request :=
  match executeOperation_request (fst a) with
  | inr req => [req]
  | inl _ => []
  end.

(** A pass over an order, an expense whose retries are used up and a
    restock: the order is of no dispatched type, the expense times out, the
    restock is answered with a 500. *)
Definition worn_expense : QueuedOperation := retried (retried sample_expense).

Definition sample_attempts : list Attempt :=
  [(sample_order, Responded 200); (worn_expense, Failed TimedOut);
   (sample_restock, Responded 500)].
(** ** Proof automation *)

(** Case analysis on where a looked-up task or a traced event comes from. *)
Ltac split_lookups :=
  repeat match goal with
    | H : <[_ := _]> _ !! _ = Some _ |- _ =>
        apply lookup_insert_Some in H as [[? ?]|[? ?]]; subst
    | H : delete _ _ !! _ = Some _ |- _ =>
        apply lookup_delete_Some in H as [? ?]
    | H : In _ (_ ++ _) |- _ => apply in_app_or in H as [H|H]
    | H : In _ (_ :: _) |- _ => destruct H as [H|H]; subst
    | H : In _ [] |- _ => destruct H
    end.

(** * Proofs *)

(** ** Schedules and traces *)

Lemma run_app (ls1 ls2 : list Label) (w : World) :
  run w (ls1 ++ ls2) = match run w ls1 with
                       | Some w' => run w' ls2
                       | None => None
                       end.
Proof.
  revert w; induction ls1 as [|l ls1 IH]; intros w; simpl; [done|].
  destruct (step w l); [apply IH | done].
Qed.

Lemma proceed_emits (tid : nat) (pre evs : list Event) (k : Task) (w : World) :
  proceed tid (evs, k) (emits pre w) = proceed tid (pre ++ evs, k) w.
Proof. unfold proceed, suspend, set_tasks, emits; simpl. by rewrite app_assoc. Qed.

Lemma proceed_proceed (tid : nat) (evs1 evs2 : list Event) (k1 k2 : Task) (w : World) :
  proceed tid (evs2, k2) (proceed tid (evs1, k1) w) = proceed tid (evs1 ++ evs2, k2) w.
Proof.
  unfold proceed, suspend, set_tasks, emits; simpl.
  by rewrite insert_insert_eq, app_assoc.
Qed.

Lemma executions_app (tid : nat) (tr1 tr2 : list Event) :
  executions tid (tr1 ++ tr2) = executions tid tr1 ++ executions tid tr2.
Proof. apply flat_map_app. Qed.

Lemma settlement_snoc (tid : nat) (tr : list Event) (r : Settled) :
  settlement tid (tr ++ [EvSettle tid r]) = Some r.
Proof.
  unfold settlement. rewrite flat_map_app; simpl.
  rewrite Nat.eqb_refl; simpl. apply last_snoc.
Qed.

Lemma storage_calls_app (tr1 tr2 : list Event) :
  storage_calls (tr1 ++ tr2) = storage_calls tr1 + storage_calls tr2.
Proof. unfold storage_calls. by rewrite List.filter_app, length_app. Qed.

Lemma processQueue_calls_app (tr1 tr2 : list Event) :
  processQueue_calls (tr1 ++ tr2) = processQueue_calls tr1 + processQueue_calls tr2.
Proof. unfold processQueue_calls. by rewrite List.filter_app, length_app. Qed.

(** ** The closed form of a pass *)

Lemma kept_app (a b : list Attempt) : kept (a ++ b) = kept a ++ kept b.
Proof. unfold kept. by rewrite List.filter_app, List.map_app. Qed.

Lemma synced_app (a b : list Attempt) : synced (a ++ b) = synced a + synced b.
Proof. unfold synced. by rewrite List.filter_app, length_app. Qed.

Lemma dropped_app (a b : list Attempt) : dropped (a ++ b) = dropped a + dropped b.
Proof. unfold dropped. by rewrite List.filter_app, length_app. Qed.

(** Every attempt ends in exactly one of the three ways. *)
Lemma attempt_cases (a : Attempt) :
  (succeeds a = true /\ retains a = false /\ drops a = false) \/
  (succeeds a = false /\ retains a = true /\ drops a = false) \/
  (succeeds a = false /\ retains a = false /\ drops a = true).
Proof.
  unfold retains, drops.
  destruct (succeeds a), (retries (retried (fst a)) <? 3); simpl; auto.
Qed.

Lemma pass_size (attempts : list Attempt) :
  synced attempts + length (kept attempts) + dropped attempts = length attempts.
Proof.
  unfold synced, kept, dropped. rewrite length_map.
  induction attempts as [|a attempts IH]; simpl; [done|].
  destruct (attempt_cases a) as [(-> & -> & ->)|[(-> & -> & ->)|(-> & -> & ->)]];
    simpl; lia.
Qed.

(** Whatever is kept is an operation of the snapshot after [retries++]. *)
Lemma kept_origin (attempts : list Attempt) (x : QueuedOperation) :
  In x (kept attempts) ->
  exists operation, In operation (List.map fst attempts) /\ x = retried operation.
Proof.
  unfold kept. rewrite in_map_iff. intros ((operation & out) & <- & Hin).
  apply filter_In in Hin as [Hin _].
  exists operation. split; [|done].
  apply in_map_iff. by exists (operation, out).
Qed.

(** The loop, run from any point with the fetches answered as the attempts
    say, parks at the [setItem] of line 138 with the closed form. *)
Lemma run_loop (tid : nat) (attempts : list Attempt) :
  forall (remaining : list QueuedOperation) (success failed : nat) (w : World),
  exists evs,
    run (proceed tid (processQueue_loop tid (List.map fst attempts) remaining success failed) w)
        (fetch_labels tid attempts)
    = Some (proceed tid (evs, ProcessSet (remaining ++ kept attempts)
                                          (success + synced attempts)
                                          (failed + dropped attempts)) w)
    /\ executions tid evs = List.map fst attempts.
Proof.
  induction attempts as [|[operation out] attempts IH]; intros remaining success failed w.
  - exists [EvSetItem tid remaining]. simpl.
    unfold kept, synced, dropped; simpl.
    by rewrite app_nil_r, !Nat.add_0_r.
  - simpl. unfold fetch_labels; simpl. fold (fetch_labels tid attempts).
    change (executeOperation_request (fst (operation, out)))
      with (executeOperation_request operation).
    unfold kept, synced, dropped, retains, drops, succeeds, executeOperation; simpl.
    destruct (executeOperation_request operation) as [e|req] eqn:Hreq.
    + (* thrown before any fetch *)
      unfold processQueue_catch; simpl.
      destruct (S (retries operation) <? 3) eqn:Hlt; simpl.
      * destruct (IH (remaining ++ [retried operation]) success failed
                    (emits [EvExecute tid operation] w)) as (evs & Hrun & Hex).
        destruct (processQueue_loop tid (List.map fst attempts)
                    (remaining ++ [retried operation]) success failed) as [evs0 k0].
        rewrite proceed_emits in Hrun.
        exists ([EvExecute tid operation] ++ evs). split.
        -- simpl in *. rewrite Hrun, proceed_emits. simpl.
           unfold kept, synced, dropped, retains, drops, succeeds, executeOperation.
           by rewrite <- app_assoc.
        -- simpl. rewrite Nat.eqb_refl. simpl. by f_equal.
      * destruct (IH remaining success (S failed)
                    (emits [EvExecute tid operation; EvConsole (LogFailedAfter3 (id operation))] w))
          as (evs & Hrun & Hex).
        destruct (processQueue_loop tid (List.map fst attempts)
                    remaining success (S failed)) as [evs0 k0].
        rewrite proceed_emits in Hrun.
        exists ([EvExecute tid operation; EvConsole (LogFailedAfter3 (id operation))] ++ evs).
        split.
        -- simpl in *. rewrite Hrun, proceed_emits. simpl.
           unfold kept, synced, dropped, retains, drops, succeeds, executeOperation.
           by rewrite Nat.add_succ_r.
        -- simpl. rewrite Nat.eqb_refl. simpl. by f_equal.
    + (* parked at the fetch, then resumed with [out] *)
      simpl. rewrite lookup_insert_eq. simpl.
      unfold processQueue_fetched, processQueue_catch.
      destruct out as [status|why]; simpl.
      * destruct (IH remaining (S success) failed
                    (emits [EvExecute tid operation; EvFetch tid req;
                            EvConsole (LogSynced (type operation) (id operation))] w))
          as (evs & Hrun & Hex).
        destruct (processQueue_loop tid (List.map fst attempts)
                    remaining (S success) failed) as [evs0 k0].
        rewrite proceed_emits in Hrun.
        rewrite proceed_proceed. simpl.
        eexists. split.
        -- simpl in *. rewrite Hrun, proceed_emits. simpl.
           unfold kept, synced, dropped, retains, drops, succeeds, executeOperation.
           by rewrite Nat.add_succ_r.
        -- simpl. rewrite Nat.eqb_refl. simpl. by f_equal.
      * destruct (S (retries operation) <? 3) eqn:Hlt; simpl.
        -- destruct (IH (remaining ++ [retried operation]) success failed
                       (emits [EvExecute tid operation; EvFetch tid req] w))
             as (evs & Hrun & Hex).
           destruct (processQueue_loop tid (List.map fst attempts)
                       (remaining ++ [retried operation]) success failed) as [evs0 k0].
           rewrite proceed_emits in Hrun.
           rewrite proceed_proceed. simpl.
           eexists. split.
           ++ simpl in *. rewrite Hrun, proceed_emits. simpl.
              unfold kept, synced, dropped, retains, drops, succeeds, executeOperation.
              by rewrite <- app_assoc.
           ++ simpl. rewrite Nat.eqb_refl. simpl. by f_equal.
        -- destruct (IH remaining success (S failed)
                       (emits [EvExecute tid operation; EvFetch tid req;
                               EvConsole (LogFailedAfter3 (id operation))] w))
             as (evs & Hrun & Hex).
           destruct (processQueue_loop tid (List.map fst attempts)
                       remaining success (S failed)) as [evs0 k0].
           rewrite proceed_emits in Hrun.
           rewrite proceed_proceed. simpl.
           eexists. split.
           ++ simpl in *. rewrite Hrun, proceed_emits. simpl.
              unfold kept, synced, dropped, retains, drops, succeeds, executeOperation.
              by rewrite Nat.add_succ_r.
           ++ simpl. rewrite Nat.eqb_refl. simpl. by f_equal.
Qed.

(** A call of processQueue that passes the guard of line 110 and is then
    left alone with a working storage: what it leaves behind. *)
Lemma processQueue_pass (w : World) (attempts : list Attempt) :
  syncInProgress w = false ->
  isOnline w = true ->
  stored w = List.map fst attempts ->
  exists evs,
    run (processQueue w) (pass_labels (next_task w) attempts)
    = Some (mkWorld true false (listeners w) (Some (kept attempts))
              (delete (next_task w) (tasks w)) (S (next_task w))
              (trace w ++ evs ++
                 [EvSettle (next_task w)
                    (Resolved (VTally (synced attempts) (dropped attempts)))]))
    /\ executions (next_task w) evs = List.map fst attempts.
Proof.
  intros Hsync Hon Hq.
  destruct (run_loop (next_task w) attempts [] 0 0
              (suspend (next_task w) ProcessGet
                 (emit (EvGetItem (next_task w))
                    (set_syncInProgress true (begin_call ApiProcessQueue w)))))
    as (evs & Hrun & Hex).
  exists ([EvCall (next_task w) ApiProcessQueue; EvGetItem (next_task w)] ++ evs).
  split.
  - unfold processQueue, pass_labels. simpl. rewrite Hsync, Hon. simpl.
    rewrite lookup_insert_eq. simpl.
    unfold stored in Hq. simpl. unfold stored; simpl. rewrite Hq.
    rewrite run_app, Hrun. simpl.
    rewrite lookup_insert_eq. simpl.
    unfold settle, emit, emits, set_tasks; simpl.
    rewrite !delete_insert_eq, Hon.
    by rewrite <- !app_assoc.
  - exact Hex.
Qed.

(** ** Reachable worlds are well formed *)

Lemma loop_events (tid : nat) (queue : list QueuedOperation) :
  forall (remaining : list QueuedOperation) (success failed : nat) (e : Event) (t : nat),
    In e (fst (processQueue_loop tid queue remaining success failed)) ->
    event_tid e = Some t -> t = tid.
Proof.
  induction queue as [|operation rest IH]; intros remaining success failed e t; simpl.
  - intros [<-|[]]; simpl; congruence.
  - destruct (executeOperation_request operation) as [err|req]; simpl.
    + unfold processQueue_catch.
      destruct (retries (retried operation) <? 3);
        match goal with
        | |- context [processQueue_loop tid rest ?r ?s ?f] =>
            specialize (IH r s f e t);
            destruct (processQueue_loop tid rest r s f) as [evs k]
        end; simpl in *.
      * intros [<-|Hin]; simpl; [congruence | auto].
      * intros [<-|[<-|Hin]]; simpl; [congruence | congruence | auto].
    + intros [<-|[<-|[]]]; simpl; congruence.
Qed.

Lemma loop_is_pass (tid : nat) (queue : list QueuedOperation) :
  forall (remaining : list QueuedOperation) (success failed : nat),
    is_pass (snd (processQueue_loop tid queue remaining success failed)) = true.
Proof.
  induction queue as [|operation rest IH]; intros remaining success failed; simpl; [done|].
  destruct (executeOperation_request operation) as [err|req]; simpl; [|done].
  unfold processQueue_catch.
  destruct (retries (retried operation) <? 3);
    match goal with
    | |- context [processQueue_loop tid rest ?r ?s ?f] =>
        specialize (IH r s f);
        destruct (processQueue_loop tid rest r s f) as [evs k]
    end; done.
Qed.

Lemma fetched_events (tid : nat) (operation : QueuedOperation)
    (rest remaining : list QueuedOperation) (success failed : nat)
    (out : FetchOutcome) (e : Event) (t : nat) :
  In e (fst (processQueue_fetched tid operation rest remaining success failed out)) ->
  event_tid e = Some t -> t = tid.
Proof.
  unfold processQueue_fetched, processQueue_catch.
  destruct (executeOperation_settle out); [destruct (retries (retried operation) <? 3)|];
    match goal with
    | |- context [processQueue_loop tid rest ?r ?s ?f] =>
        pose proof (loop_events tid rest r s f e t) as Hl;
        destruct (processQueue_loop tid rest r s f) as [evs k]
    end; simpl in *.
  - auto.
  - intros [<-|Hin]; simpl; [congruence | auto].
  - intros [<-|Hin]; simpl; [congruence | auto].
Qed.

Lemma fetched_is_pass (tid : nat) (operation : QueuedOperation)
    (rest remaining : list QueuedOperation) (success failed : nat) (out : FetchOutcome) :
  is_pass (snd (processQueue_fetched tid operation rest remaining success failed out)) = true.
Proof.
  unfold processQueue_fetched, processQueue_catch.
  destruct (executeOperation_settle out); [destruct (retries (retried operation) <? 3)|];
    match goal with
    | |- context [processQueue_loop tid rest ?r ?s ?f] =>
        pose proof (loop_is_pass tid rest r s f) as Hl;
        destruct (processQueue_loop tid rest r s f) as [evs k]
    end; done.
Qed.

Section WellFormed.

Variable w : World.
Hypothesis Hwf : wf w.

Lemma wf_set_isOnline (b : bool) : wf (set_isOnline b w).
Proof. destruct Hwf; by constructor. Qed.

Lemma wf_set_listeners (ls : list nat) : wf (set_listeners ls w).
Proof. destruct Hwf; by constructor. Qed.

Lemma wf_set_storage (s : option (list QueuedOperation)) : wf (set_storage s w).
Proof. destruct Hwf; by constructor. Qed.

Lemma wf_emits (evs : list Event) :
  (forall e t, In e evs -> event_tid e = Some t -> t < next_task w) ->
  wf (emits evs w).
Proof.
  intros Hevs. destruct Hwf as [Ht Htr Hi Hs].
  constructor; simpl; [done| |done|done].
  intros e t Hin He. split_lookups; eauto.
Qed.

(** A parked call moves on to its next [await] within the same method. *)
Lemma wf_proceed (tid : nat) (k : Task) (r : list Event * Task) :
  tasks w !! tid = Some k ->
  is_pass (snd r) = is_pass k ->
  (forall e t, In e (fst r) -> event_tid e = Some t -> t = tid) ->
  wf (proceed tid r w).
Proof.
  intros Hk Hp Hevs. destruct Hwf as [Ht Htr Hi Hs].
  constructor; simpl.
  - intros t k' H. split_lookups; eauto.
  - intros e t Hin He. split_lookups; [eauto|].
    rewrite (Hevs e t Hin He). eauto.
  - intros Hsync t k' H. split_lookups; [|eauto].
    rewrite Hp. eauto.
  - intros t1 t2 k1 k2 H1 P1 H2 P2. split_lookups; rewrite ?Hp in *; eauto.
Qed.

(** The promise of a call settles; its [syncInProgress] duty, if it had
    one, is over. *)
Lemma wf_settle (tid : nat) (r : Settled) :
  tid < next_task w -> wf (settle tid r w).
Proof.
  intros Hlt. destruct Hwf as [Ht Htr Hi Hs].
  constructor; simpl.
  - intros t k' H. split_lookups; eauto.
  - intros e t Hin He. split_lookups; [eauto|]. simpl in He. congruence.
  - intros Hsync t k' H. split_lookups; eauto.
  - intros t1 t2 k1 k2 H1 P1 H2 P2. split_lookups; eauto.
Qed.

Lemma wf_end_pass (tid : nat) (k : Task) (r : Settled) :
  tasks w !! tid = Some k -> is_pass k = true ->
  wf (settle tid r (set_syncInProgress false w)).
Proof.
  intros Hk Hp. destruct Hwf as [Ht Htr Hi Hs].
  constructor; simpl.
  - intros t k' H. split_lookups; eauto.
  - intros e t Hin He. split_lookups; [eauto|]. simpl in He.
    injection He as <-. eauto.
  - intros _ t k' H. split_lookups.
    destruct (is_pass k') eqn:P; [|done].
    exfalso. eauto.
  - intros t1 t2 k1 k2 H1 P1 H2 P2. split_lookups; eauto.
Qed.

(** A call of a method other than processQueue parks at its first [await]. *)
Lemma wf_spawn (what : Api) (e : Event) (k : Task) :
  event_tid e = Some (next_task w) -> is_pass k = false ->
  wf (suspend (next_task w) k (emit e (begin_call what w))).
Proof.
  intros He Hp. destruct Hwf as [Ht Htr Hi Hs].
  constructor; simpl.
  - intros t k' H. split_lookups; [lia|]. eauto using Nat.lt_lt_succ_r.
  - intros e' t Hin He'. split_lookups; simpl in *.
    + eauto using Nat.lt_lt_succ_r.
    + injection He' as <-. lia.
    + rewrite He in He'. injection He' as <-. lia.
  - intros Hsync t k' H. split_lookups; eauto using Nat.lt_lt_succ_r.
  - intros t1 t2 k1 k2 H1 P1 H2 P2. split_lookups; try congruence. eauto using Nat.lt_lt_succ_r.
Qed.

Lemma wf_processQueue : wf (processQueue w).
Proof.
  unfold processQueue. simpl.
  destruct Hwf as [Ht Htr Hi Hs].
  destruct (syncInProgress w) eqn:Hsync; simpl;
    [|destruct (isOnline w) eqn:Hon; simpl].
  - constructor; simpl.
    + intros t k' H. split_lookups; eauto using Nat.lt_lt_succ_r.
    + intros e' t Hin He'. split_lookups; simpl in *; try (injection He' as <-; lia).
      eauto using Nat.lt_lt_succ_r.
    + rewrite Hsync. done.
    + intros t1 t2 k1 k2 H1 P1 H2 P2. split_lookups; eauto using Nat.lt_lt_succ_r.
  - constructor; simpl.
    + intros t k' H. split_lookups; [lia|]. eauto using Nat.lt_lt_succ_r.
    + intros e' t Hin He'. split_lookups; simpl in *; try (injection He' as <-; lia).
      eauto using Nat.lt_lt_succ_r.
    + done.
    + intros t1 t2 k1 k2 H1 P1 H2 P2. split_lookups; try done;
        match goal with
        | H : tasks w !! _ = Some ?k, P : is_pass ?k = true |- _ =>
            rewrite (Hi eq_refl _ _ H) in P; done
        end.
  - constructor; simpl.
    + intros t k' H. split_lookups; eauto using Nat.lt_lt_succ_r.
    + intros e' t Hin He'. split_lookups; simpl in *; try (injection He' as <-; lia).
      eauto using Nat.lt_lt_succ_r.
    + intros _ t k' H. split_lookups; eauto using Nat.lt_lt_succ_r.
    + intros t1 t2 k1 k2 H1 P1 H2 P2. split_lookups; eauto using Nat.lt_lt_succ_r.
Qed.

End WellFormed.

Lemma next_task_processQueue (w : World) :
  next_task (processQueue w) = S (next_task w).
Proof.
  unfold processQueue; simpl.
  by destruct (syncInProgress w || negb (isOnline w)).
Qed.

Lemma wf_init (s : option (list QueuedOperation)) : wf (init s).
Proof. by constructor. Qed.

Lemma wf_getQueue_resume (ok : bool) (w : World) :
  wf w ->
  wf (snd (getQueue_resume ok w))
  /\ tasks (snd (getQueue_resume ok w)) = tasks w
  /\ next_task (snd (getQueue_resume ok w)) = next_task w.
Proof.
  intros Hwf. destruct ok; simpl; [done|].
  split; [|done]. apply wf_emits; [done|].
  intros e t [<-|[]]; simpl; congruence.
Qed.

Lemma wf_step (w w' : World) (l : Label) : wf w -> step w l = Some w' -> wf w'.
Proof.
  intros Hwf Hstep. destruct l; simpl in Hstep.
  - (* NetInfoEvent *)
    injection Hstep as <-. unfold netInfoListener.
    match goal with
    | |- wf (if _ then processQueue ?w1 else _) => assert (wf w1) as Hw1
    end.
    { apply wf_emits; [by apply wf_set_isOnline|].
      intros e t Hin He. apply in_map_iff in Hin as (cb & <- & _). done. }
    destruct (_ && _); [by apply wf_processQueue | done].
  - injection Hstep as <-. by apply wf_set_listeners.
  - injection Hstep as <-. by apply wf_set_listeners.
  - injection Hstep as <-. by apply wf_spawn.
  - injection Hstep as <-. by apply wf_spawn.
  - injection Hstep as <-. by apply wf_spawn.
  - injection Hstep as <-. by apply wf_processQueue.
  - injection Hstep as <-. by apply wf_spawn.
  - (* StorageDone *)
    destruct (tasks w !! tid) as [k|] eqn:Hk; [|done].
    pose proof (wf_tasks w Hwf tid k Hk) as Hlt.
    destruct (wf_getQueue_resume ok w Hwf) as (Hwr & Htr & Hnr).
    destruct k; simpl in Hstep; try done.
    + (* enqueue, read done *)
      injection Hstep as <-. unfold enqueue_read.
      destruct (getQueue_resume ok w) as [queue wr]; simpl in *.
      apply (wf_proceed wr Hwr tid (EnqueueGet operation)
               ([EvSetItem tid (queue ++ [operation])],
                EnqueueSet operation (queue ++ [operation]))); simpl.
      * by rewrite Htr.
      * done.
      * intros e t [<-|[]]; simpl; congruence.
    + (* enqueue, write done *)
      injection Hstep as <-. unfold enqueue_written.
      destruct ok; [|by apply wf_settle].
      match goal with
      | |- wf (settle _ _ (if _ then processQueue ?w1 else _)) => assert (wf w1) as Hw1
      end.
      { apply wf_emits; [by apply wf_set_storage|].
        intros e t [<-|[]]; simpl; congruence. }
      destruct (isOnline _).
      * apply wf_settle; [by apply wf_processQueue|].
        rewrite next_task_processQueue. simpl. lia.
      * by apply wf_settle.
    + destruct (getQueue_resume ok w) as [queue wr]; simpl in *.
      injection Hstep as <-. apply wf_settle; [done | lia].
    + destruct (getQueue_resume ok w) as [queue wr]; simpl in *.
      injection Hstep as <-. apply wf_settle; [done | lia].
    + (* processQueue, read done *)
      destruct (getQueue_resume ok w) as [queue wr]; simpl in *.
      injection Hstep as <-.
      apply (wf_proceed wr Hwr tid ProcessGet).
      * by rewrite Htr.
      * apply loop_is_pass.
      * apply loop_events.
    + (* processQueue, write done *)
      injection Hstep as <-. unfold processQueue_written.
      destruct ok.
      * apply (wf_end_pass _ (wf_set_storage w Hwf (Some remaining)) tid
                 (ProcessSet remaining success failed)); done.
      * by apply (wf_end_pass w Hwf tid (ProcessSet remaining success failed)).
    + destruct ok; injection Hstep as <-.
      * apply wf_settle; [by apply wf_set_storage | done].
      * by apply wf_settle.
  - (* FetchDone *)
    destruct (tasks w !! tid) as [k|] eqn:Hk; [|done].
    destruct k; simpl in Hstep; try done.
    injection Hstep as <-.
    apply (wf_proceed w Hwf tid (ProcessFetch operation rest remaining success failed)).
    + done.
    + apply fetched_is_pass.
    + apply fetched_events.
Qed.

Lemma reachable_wf (w : World) : reachable w -> wf w.
Proof.
  induction 1 as [s|w w' l _ IH Hstep]; [apply wf_init | by apply (wf_step w w' l)].
Qed.

Lemma reachable_run (w w' : World) (ls : list Label) :
  reachable w -> run w ls = Some w' -> reachable w'.
Proof.
  revert w; induction ls as [|l ls IH]; intros w Hr; simpl.
  - by intros [= <-].
  - destruct (step w l) as [w1|] eqn:Hstep; [|done].
    apply IH. by apply (reachable_step w w1 l).
Qed.

(** Nothing in the trace of a well-formed world speaks of a call that has
    not been made yet. *)
Lemma executions_fresh (w : World) (tid : nat) :
  wf w -> next_task w <= tid -> executions tid (trace w) = [].
Proof.
  intros Hwf Hle. pose proof (wf_trace w Hwf) as Htr.
  unfold executions. induction (trace w) as [|e tr IH]; [done|].
  simpl. rewrite IH by (intros; eapply Htr; [by right|done]).
  destruct e; try done. simpl.
  destruct (Nat.eqb_spec tid0 tid) as [->|]; [|done].
  specialize (Htr (EvExecute tid operation) tid (or_introl eq_refl) eq_refl). lia.
Qed.

Lemma next_task_free (w : World) : wf w -> tasks w !! next_task w = None.
Proof.
  intros Hwf. destruct (tasks w !! next_task w) as [k|] eqn:Hk; [|done].
  pose proof (wf_tasks w Hwf _ _ Hk). lia.
Qed.

(** ** A pass seen from one of its operations *)

(** A pass over [pre ++ a :: post]: the attempt [a] adds its own share to
    what the attempts around it leave. *)
Lemma pass_focus (w : World) (pre post : list Attempt) (a : Attempt) :
  ready w ->
  stored w = List.map fst pre ++ fst a :: List.map fst post ->
  exists w',
    replay_pass w (pre ++ a :: post) = Some w'
    /\ executions (next_task w) (trace w') = stored w
    /\ storage w' = Some (kept pre ++ kept [a] ++ kept post)
    /\ settlement (next_task w) (trace w')
       = Some (Resolved (VTally (synced pre + synced [a] + synced post)
                                (dropped pre + dropped [a] + dropped post))).
Proof.
  intros (Hreach & Hsync & Hon) Hq.
  assert (stored w = List.map fst (pre ++ a :: post)) as Hq'
    by (by rewrite List.map_app).
  destruct (processQueue_pass w (pre ++ a :: post) Hsync Hon Hq') as (evs & Hrun & Hex).
  eexists. split; [exact Hrun|]. simpl.
  split; [|split].
  - rewrite !executions_app, Hex. simpl.
    rewrite (executions_fresh w) by (auto using reachable_wf).
    simpl. by rewrite app_nil_r, Hq'.
  - change (a :: post) with ([a] ++ post). by rewrite !kept_app.
  - rewrite app_assoc, settlement_snoc.
    change (a :: post) with ([a] ++ post).
    by rewrite !synced_app, !dropped_app, !Nat.add_assoc.
Qed.

Lemma kept_ids (attempts : list Attempt) (ident : string) :
  (forall x, In x (List.map fst attempts) -> id x <> ident) ->
  forall x, In x (kept attempts) -> id x <> ident.
Proof.
  intros Hall x Hin. apply kept_origin in Hin as (y & Hy & ->). simpl. by apply Hall.
Qed.

Lemma kept_one (a : Attempt) :
  kept [a] = if retains a then [retried (fst a)] else [].
Proof. unfold kept; simpl. by destruct (retains a). Qed.

Lemma synced_one (a : Attempt) : synced [a] = if succeeds a then 1 else 0.
Proof. unfold synced; simpl. by destruct (succeeds a). Qed.

Lemma dropped_one (a : Attempt) : dropped [a] = if drops a then 1 else 0.
Proof. unfold dropped; simpl. by destruct (drops a). Qed.

(** ** The guard of processQueue *)

Lemma pass_in_flight_sync (w : World) :
  wf w -> pass_in_flight w -> syncInProgress w = true.
Proof.
  intros Hwf (tid & k & Hk & Hp).
  destruct (syncInProgress w) eqn:Hsync; [done|].
  rewrite (wf_idle w Hwf Hsync tid k Hk) in Hp. done.
Qed.

(** C1. At most one replay pass is in flight in any world the queue can
    reach, and a call of processQueue made while a pass is in flight (its
    promise not yet settled) or while [isOnline] is false settles at once
    with [{ success: 0, failed: 0 }]: the call issues no AsyncStorage call,
    parks nothing, and leaves the persisted entry and both flags as they
    were. *)
Theorem processQueue_mutual_exclusion (w : World) :
  reachable w ->
  (forall t1 t2 k1 k2,
      tasks w !! t1 = Some k1 -> is_pass k1 = true ->
      tasks w !! t2 = Some k2 -> is_pass k2 = true -> t1 = t2)
  /\ (pass_in_flight w \/ isOnline w = false ->
      exists w',
        step w CallProcessQueue = Some w'
        /\ trace w' = trace w ++ [EvCall (next_task w) ApiProcessQueue;
                                  EvSettle (next_task w) (Resolved (VTally 0 0))]
        /\ storage_calls (trace w') = storage_calls (trace w)
        /\ storage w' = storage w
        /\ tasks w' = tasks w
        /\ isOnline w' = isOnline w
        /\ syncInProgress w' = syncInProgress w).
Proof.
  intros Hreach. pose proof (reachable_wf w Hreach) as Hwf.
  split; [apply (wf_single w Hwf)|].
  intros Hguard.
  assert (syncInProgress w || negb (isOnline w) = true) as Hg.
  { destruct Hguard as [Hp| ->].
    - by rewrite (pass_in_flight_sync w Hwf Hp).
    - by rewrite orb_true_r. }
  eexists. split; [reflexivity|].
  unfold processQueue; simpl. rewrite Hg; simpl.
  repeat split.
  - by rewrite <- app_assoc.
  - rewrite <- app_assoc, storage_calls_app. unfold storage_calls at 2. simpl. lia.
  - apply delete_id, next_task_free, Hwf.
Qed.

Lemma processQueue_mutual_exclusion_witness :
  let w := netInfoListener (Some false) (init (Some [])) in
  exists w',
    step w CallProcessQueue = Some w'
    /\ trace w' = trace w ++ [EvCall (next_task w) ApiProcessQueue;
                              EvSettle (next_task w) (Resolved (VTally 0 0))]
    /\ storage_calls (trace w') = storage_calls (trace w)
    /\ storage w' = storage w
    /\ tasks w' = tasks w
    /\ isOnline w' = isOnline w
    /\ syncInProgress w' = syncInProgress w.
Proof.
  intros w.
  refine (proj2 (processQueue_mutual_exclusion w _) _).
  - apply (reachable_step (init (Some [])) w (NetInfoEvent (Some false)));
      [apply reachable_init | reflexivity].
  - right. reflexivity.
Defined.

(** ** The NetInfo listener *)

Lemma processQueue_calls_processQueue (w : World) :
  processQueue_calls (trace (processQueue w)) = S (processQueue_calls (trace w)).
Proof.
  unfold processQueue; simpl.
  destruct (syncInProgress w || negb (isOnline w)); simpl;
    rewrite <- app_assoc, processQueue_calls_app;
    unfold processQueue_calls at 2; simpl; lia.
Qed.

Lemma processQueue_calls_notify (online : bool) (ls : list nat) :
  processQueue_calls (List.map (fun listener => EvNotify listener online) ls) = 0.
Proof. induction ls; [done|]. exact IHls. Qed.

(** C9. The NetInfo listener starts exactly one call of processQueue when
    [isOnline] was false and the event says connected ([state.isConnected]
    true, or null, which line 30 reads as true), and none otherwise: not on
    a change from online to offline, and not on an event that repeats the
    online (or the offline) state. *)
Theorem reconnect_triggers_replay (w : World) (isConnected : option bool) :
  step w (NetInfoEvent isConnected) = Some (netInfoListener isConnected w)
  /\ isOnline (netInfoListener isConnected w) = default true isConnected
  /\ processQueue_calls (trace (netInfoListener isConnected w))
     = processQueue_calls (trace w)
       + (if negb (isOnline w) && default true isConnected then 1 else 0).
Proof.
  split; [done|].
  unfold netInfoListener. simpl.
  destruct (negb (isOnline w) && default true isConnected) eqn:Hc.
  - split.
    + unfold processQueue; simpl.
      apply andb_true_iff in Hc as [_ Hc].
      by destruct (syncInProgress w || negb (default true isConnected)).
    + rewrite processQueue_calls_processQueue. simpl.
      rewrite processQueue_calls_app, processQueue_calls_notify. lia.
  - split; [done|]. simpl.
    rewrite processQueue_calls_app, processQueue_calls_notify. lia.
Qed.

(** ** Replay passes *)

(** C7. Whatever the mix of outcomes, a replay pass hands every operation of
    its snapshot to executeOperation, in order, and the promise of
    processQueue resolves with the two counts; no outcome of an operation
    stops the loop or rejects the promise. *)
Theorem no_fail_fast (w : World) (attempts : list Attempt) :
  ready w ->
  stored w = List.map fst attempts ->
  exists w',
    replay_pass w attempts = Some w'
    /\ executions (next_task w) (trace w') = stored w
    /\ settlement (next_task w) (trace w')
       = Some (Resolved (VTally (synced attempts) (dropped attempts)))
    /\ storage w' = Some (kept attempts)
    /\ synced attempts + length (kept attempts) + dropped attempts = length (stored w).
Proof.
  intros (Hreach & Hsync & Hon) Hq.
  destruct (processQueue_pass w attempts Hsync Hon Hq) as (evs & Hrun & Hex).
  eexists. split; [exact Hrun|]. simpl.
  repeat split.
  - rewrite !executions_app, Hex. simpl.
    rewrite (executions_fresh w) by (auto using reachable_wf).
    simpl. by rewrite app_nil_r, Hq.
  - by rewrite app_assoc, settlement_snoc.
  - by rewrite pass_size, Hq, length_map.
Qed.

Lemma no_fail_fast_witness :
  exists w',
    replay_pass (init (Some [sample_expense; sample_restock]))
                [(sample_expense, Failed NetworkFailure); (sample_restock, Responded 200)]
    = Some w'
    /\ executions 0 (trace w') = [sample_expense; sample_restock]
    /\ settlement 0 (trace w') = Some (Resolved (VTally 1 0))
    /\ storage w' = Some [retried sample_expense]
    /\ 1 + 1 + 0 = 2.
Proof.
  apply (no_fail_fast (init (Some [sample_expense; sample_restock]))
           [(sample_expense, Failed NetworkFailure); (sample_restock, Responded 200)]).
  - split; [apply reachable_init | split; reflexivity].
  - reflexivity.
Defined.

(** C6. An operation whose execution succeeds during a pass, whatever its
    [retries] was, is not in the queue the pass writes back (the queue is
    what the other operations leave) and adds exactly one to [success]. *)
Theorem success_removes (w : World) (pre post : list Attempt)
    (operation : QueuedOperation) (out : FetchOutcome) :
  ready w ->
  stored w = List.map fst pre ++ operation :: List.map fst post ->
  executeOperation operation out = inr tt ->
  exists w',
    replay_pass w (pre ++ (operation, out) :: post) = Some w'
    /\ storage w' = Some (kept pre ++ kept post)
    /\ settlement (next_task w) (trace w')
       = Some (Resolved (VTally (synced pre + 1 + synced post)
                                (dropped pre + dropped post)))
    /\ ((forall x, In x (List.map fst pre ++ List.map fst post) -> id x <> id operation) ->
        forall x, In x (stored w') -> id x <> id operation).
Proof.
  intros Hready Hq Hexec.
  destruct (pass_focus w pre post (operation, out) Hready Hq)
    as (w' & Hrun & _ & Hst & Hset).
  rewrite kept_one in Hst. rewrite synced_one, dropped_one in Hset.
  unfold retains, drops, succeeds in Hst, Hset. simpl in Hst, Hset.
  rewrite Hexec in Hst, Hset. simpl in Hst, Hset. rewrite Nat.add_0_r in Hset.
  exists w'. repeat split; try done.
  intros Hids x Hin. unfold stored in Hin. rewrite Hst in Hin. simpl in Hin.
  apply in_app_or in Hin as [Hin|Hin].
  - apply (kept_ids pre (id operation)); [|done].
    intros y Hy. apply Hids, in_or_app. by left.
  - apply (kept_ids post (id operation)); [|done].
    intros y Hy. apply Hids, in_or_app. by right.
Qed.

Lemma success_removes_witness :
  exists w',
    replay_pass (init (Some [sample_expense; retried (retried sample_restock)]))
                ([(sample_expense, Failed TimedOut)]
                   ++ (retried (retried sample_restock), Responded 201) :: [])
    = Some w'
    /\ storage w' = Some [retried sample_expense]
    /\ settlement 0 (trace w') = Some (Resolved (VTally 1 0))
    /\ ((forall x, In x [sample_expense] -> id x <> id sample_restock) ->
        forall x, In x (stored w') -> id x <> id sample_restock).
Proof.
  apply (success_removes (init (Some [sample_expense; retried (retried sample_restock)]))
           [(sample_expense, Failed TimedOut)] []
           (retried (retried sample_restock)) (Responded 201)).
  - split; [apply reachable_init | split; reflexivity].
  - reflexivity.
  - reflexivity.
Defined.

(** An attempt that fails, seen in its pass: the operation is written back
    with one more retry while that stays under 3, and is dropped and counted
    in [failed] otherwise. *)
Lemma failing_attempt (w : World) (pre post : list Attempt)
    (operation : QueuedOperation) (out : FetchOutcome) :
  ready w ->
  stored w = List.map fst pre ++ operation :: List.map fst post ->
  succeeds (operation, out) = false ->
  exists w',
    replay_pass w (pre ++ (operation, out) :: post) = Some w'
    /\ executions (next_task w) (trace w') = stored w
    /\ storage w'
       = Some (kept pre
               ++ (if S (retries operation) <? 3 then [retried operation] else [])
               ++ kept post)
    /\ settlement (next_task w) (trace w')
       = Some (Resolved
                 (VTally (synced pre + synced post)
                         (dropped pre + (if S (retries operation) <? 3 then 0 else 1)
                          + dropped post))).
Proof.
  intros Hready Hq Hfail.
  destruct (pass_focus w pre post (operation, out) Hready Hq)
    as (w' & Hrun & Hex & Hst & Hset).
  rewrite kept_one in Hst. rewrite synced_one, dropped_one in Hset.
  unfold retains, drops in Hst, Hset. rewrite Hfail in Hst, Hset.
  simpl in Hst, Hset. rewrite Nat.add_0_r in Hset.
  exists w'. split; [done|]. split; [done|]. split; [done|].
  rewrite Hset. by destruct (S (retries operation) <? 3).
Qed.

Lemma executeOperation_unknown (operation : QueuedOperation) :
  ~ In (type operation) dispatched_types ->
  executeOperation_request operation = inl (UnknownOperationType (type operation)).
Proof.
  intros Hnot. unfold executeOperation_request.
  repeat match goal with
    | |- context [String.eqb (type operation) ?s] =>
        destruct (String.eqb_spec (type operation) s) as [Heq|_];
        [exfalso; apply Hnot; rewrite Heq; simpl; tauto|]
    end.
  done.
Qed.

(** C8. An operation whose [type] has no [case] in the switch of
    executeOperation (that is "create_order", or any string outside the
    declared union) makes executeOperation throw before any request; the
    pass treats that like any other failed attempt of this one operation:
    [retries] goes up by one, the operation is written back while that is
    under 3 and dropped into [failed] otherwise, and the pass goes on over
    the whole snapshot and resolves. *)
Theorem unknown_kind_is_retried (w : World) (pre post : list Attempt)
    (operation : QueuedOperation) (out : FetchOutcome) :
  ready w ->
  stored w = List.map fst pre ++ operation :: List.map fst post ->
  ~ In (type operation) dispatched_types ->
  executeOperation operation out = inl (UnknownOperationType (type operation))
  /\ retries (retried operation) = S (retries operation)
  /\ exists w',
      replay_pass w (pre ++ (operation, out) :: post) = Some w'
      /\ executions (next_task w) (trace w') = stored w
      /\ storage w'
         = Some (kept pre
                 ++ (if S (retries operation) <? 3 then [retried operation] else [])
                 ++ kept post)
      /\ settlement (next_task w) (trace w')
         = Some (Resolved
                   (VTally (synced pre + synced post)
                           (dropped pre + (if S (retries operation) <? 3 then 0 else 1)
                            + dropped post))).
Proof.
  intros Hready Hq Hnot.
  assert (executeOperation operation out = inl (UnknownOperationType (type operation)))
    as Hexec by (unfold executeOperation; by rewrite executeOperation_unknown).
  split; [done|]. split; [done|].
  apply failing_attempt; [done|done|].
  unfold succeeds; simpl. by rewrite Hexec.
Qed.

Lemma unknown_kind_is_retried_witness :
  In "create_order"%string declared_types
  /\ executeOperation sample_order (Responded 200)
     = inl (UnknownOperationType "create_order")
  /\ retries (retried sample_order) = 1
  /\ exists w',
      replay_pass (init (Some [sample_order; sample_expense]))
                  ([] ++ (sample_order, Responded 200) :: [(sample_expense, Responded 200)])
      = Some w'
      /\ executions 0 (trace w') = [sample_order; sample_expense]
      /\ storage w' = Some [retried sample_order]
      /\ settlement 0 (trace w') = Some (Resolved (VTally 1 0)).
Proof.
  split; [simpl; tauto|].
  apply (unknown_kind_is_retried (init (Some [sample_order; sample_expense]))
           [] [(sample_expense, Responded 200)] sample_order (Responded 200)).
  - split; [apply reachable_init | split; reflexivity].
  - reflexivity.
  - simpl. intros [H|[H|[H|[H|[]]]]]; discriminate H.
Defined.









(** ** enqueue *)

Lemma executions_notify (tid : nat) (online : bool) (ls : list nat) :
  executions tid (List.map (fun listener => EvNotify listener online) ls) = [].
Proof. induction ls; [done|]. exact IHls. Qed.

(** An awaited enqueue while offline appends to the persisted array. *)
Lemma enqueue_offline (w : World) (c : EnqueueCall) :
  isOnline w = false ->
  run w (enqueue_labels (next_task w) c true true)
  = Some (mkWorld false (syncInProgress w) (listeners w)
            (Some (stored w ++ [operation_of c]))
            (delete (next_task w) (tasks w)) (S (next_task w))
            (trace w ++ [EvCall (next_task w) ApiEnqueue; EvGetItem (next_task w);
                         EvSetItem (next_task w) (stored w ++ [operation_of c]);
                         EvConsole (LogEnqueued (type (operation_of c)) (id (operation_of c)));
                         EvSettle (next_task w) (Resolved (VId (id (operation_of c))))])).
Proof.
  intros Hoff. unfold enqueue_labels. simpl.
  rewrite lookup_insert_eq. simpl.
  rewrite lookup_insert_eq. simpl.
  rewrite Hoff. unfold settle, emit, emits, set_tasks. simpl.
  rewrite !delete_insert_eq, Hoff.
  by rewrite <- !app_assoc.
Qed.

Lemma enqueue_all_offline (calls : list EnqueueCall) :
  forall w : World,
    isOnline w = false ->
    exists w',
      run w (enqueue_all (next_task w) calls) = Some w'
      /\ isOnline w' = false
      /\ syncInProgress w' = syncInProgress w
      /\ stored w' = stored w ++ List.map operation_of calls.
Proof.
  induction calls as [|c calls IH]; intros w Hoff.
  - exists w. simpl. by rewrite app_nil_r.
  - change (enqueue_all (next_task w) (c :: calls))
      with (enqueue_labels (next_task w) c true true ++ enqueue_all (S (next_task w)) calls).
    rewrite run_app, (enqueue_offline w c Hoff).
    match goal with
    | |- context [run ?w1 (enqueue_all (S (next_task w)) calls)] =>
        destruct (IH w1 eq_refl) as (w' & Hrun & Hoff' & Hsync' & Hst')
    end.
    exists w'. cbn [next_task] in Hrun. rewrite Hrun. repeat split; try done.
    rewrite Hst'. unfold stored at 1. simpl. by rewrite <- app_assoc.
Qed.

(** C5. Awaited enqueue calls made while offline (so that none of them
    starts a replay pass) leave the persisted array as it was followed by
    the new operations in call order; getQueue then returns exactly that
    array, and the replay pass started by the next reconnect hands the
    operations to executeOperation in that same order. *)
Theorem enqueue_order_preserved (w : World) (calls : list EnqueueCall) :
  reachable w ->
  isOnline w = false ->
  syncInProgress w = false ->
  exists w',
    run w (enqueue_all (next_task w) calls) = Some w'
    /\ stored w' = stored w ++ List.map operation_of calls
    /\ (exists w'',
          run w' [CallGetQueue; StorageDone (next_task w') true] = Some w''
          /\ settlement (next_task w') (trace w'')
             = Some (Resolved (VQueue (stored w ++ List.map operation_of calls))))
    /\ (forall attempts,
          List.map fst attempts = stored w ++ List.map operation_of calls ->
          exists w'',
            run w' (NetInfoEvent (Some true) :: pass_labels (next_task w') attempts)
            = Some w''
            /\ executions (next_task w') (trace w'')
               = stored w ++ List.map operation_of calls).
Proof.
  intros Hreach Hoff Hsync.
  destruct (enqueue_all_offline calls w Hoff) as (w' & Hrun & Hoff' & Hsync' & Hst').
  pose proof (reachable_wf w' (reachable_run w w' _ Hreach Hrun)) as Hwf'.
  exists w'. split; [done|]. split; [done|]. split.
  - eexists. split.
    + simpl. rewrite lookup_insert_eq. simpl. reflexivity.
    + simpl. rewrite settlement_snoc.
      change (stored (getQueue w')) with (stored w'). by rewrite Hst'.
  - intros attempts Hq.
    set (w1 := emits (List.map (fun listener => EvNotify listener true) (listeners w'))
                 (set_isOnline true w')).
    assert (stored w1 = List.map fst attempts) as Hq1 by (by rewrite Hq, <- Hst').
    assert (syncInProgress w1 = false) as Hs1 by (simpl; congruence).
    destruct (processQueue_pass w1 attempts Hs1 eq_refl Hq1) as (evs & Hpass & Hex).
    eexists. split.
    + simpl. unfold netInfoListener. rewrite Hoff'. simpl. exact Hpass.
    + simpl. simpl in Hex. rewrite !executions_app, executions_notify, Hex.
      rewrite (executions_fresh w') by (done || lia).
      simpl. by rewrite app_nil_r.
Qed.

Lemma enqueue_order_preserved_witness :
  let w := netInfoListener (Some false) (init None) in
  let calls := [mkCall "log_expense" (payload sample_expense) 1700000000000 "k3j9x0q2a"
                       1700000000000;
                mkCall "restock" (payload sample_restock) 1700000000500 "p0o9i8u7y"
                       1700000000500] in
  exists w',
    run w (enqueue_all (next_task w) calls) = Some w'
    /\ stored w' = stored w ++ List.map operation_of calls
    /\ (exists w'',
          run w' [CallGetQueue; StorageDone (next_task w') true] = Some w''
          /\ settlement (next_task w') (trace w'')
             = Some (Resolved (VQueue (stored w ++ List.map operation_of calls))))
    /\ (forall attempts,
          List.map fst attempts = stored w ++ List.map operation_of calls ->
          exists w'',
            run w' (NetInfoEvent (Some true) :: pass_labels (next_task w') attempts)
            = Some w''
            /\ executions (next_task w') (trace w'')
               = stored w ++ List.map operation_of calls).
Proof.
  intros w calls.
  apply (enqueue_order_preserved w calls).
  - apply (reachable_step (init None) w (NetInfoEvent (Some false)));
      [apply reachable_init | reflexivity].
  - reflexivity.
  - reflexivity.
Defined.

(** C5, as stated, fails.  Two enqueue calls made while offline, the second
    before the first has completed: both promises resolve with an id, no
    replay pass is started, and getQueue then returns the second operation
    alone. *)
Lemma overlapping_enqueues_lose_the_first :
  exists w',
    run offline_world
        (overlapping_enqueues 0 expense_call restock_call
           ++ [CallGetQueue; StorageDone 2 true]) = Some w'
    /\ settlement 0 (trace w') = Some (Resolved (VId (id sample_expense)))
    /\ settlement 1 (trace w') = Some (Resolved (VId (id sample_restock)))
    /\ processQueue_calls (trace w') = 0
    /\ settlement 2 (trace w') = Some (Resolved (VQueue [sample_restock]))
    /\ settlement 2 (trace w')
       <> Some (Resolved (VQueue (List.map operation_of [expense_call; restock_call]))).
Proof.
  exists (world_of (run offline_world
                      (overlapping_enqueues 0 expense_call restock_call
                         ++ [CallGetQueue; StorageDone 2 true]))).
  split; [vm_compute; reflexivity|]. by vm_compute.
Qed.

Lemma writes_app (tid : nat) (tr1 tr2 : list Event) :
  writes tid (tr1 ++ tr2) = writes tid tr1 ++ writes tid tr2.
Proof. apply flat_map_app. Qed.

Lemma writes_processQueue (tid : nat) (w : World) :
  writes tid (trace (processQueue w)) = writes tid (trace w).
Proof.
  unfold processQueue; simpl.
  destruct (syncInProgress w || negb (isOnline w)); simpl;
    rewrite !writes_app; simpl; by rewrite !app_nil_r.
Qed.

Lemma writes_set_same (tid : nat) (data : list QueuedOperation) :
  writes tid [EvSetItem tid data] = [data].
Proof. unfold writes; simpl. by rewrite Nat.eqb_refl. Qed.

Lemma storage_processQueue (w : World) : storage (processQueue w) = storage w.
Proof.
  unfold processQueue; simpl. by destruct (syncInProgress w || negb (isOnline w)).
Qed.

Lemma console_app (tr1 tr2 : list Event) :
  console (tr1 ++ tr2) = console tr1 ++ console tr2.
Proof. apply flat_map_app. Qed.

Lemma console_processQueue (w : World) :
  console (trace (processQueue w)) = console (trace w).
Proof.
  unfold processQueue; simpl.
  destruct (syncInProgress w || negb (isOnline w)); simpl;
    rewrite !console_app; simpl; by rewrite !app_nil_r.
Qed.

(** C4, as the code has it.  The promise of an awaited enqueue resolves
    with the new operation's id exactly when the [setItem] of line 73
    succeeds, and rejects with the storage error when it fails.  A failed
    read of the existing queue is logged (one line, line 93) and not thrown:
    the queue is then taken as empty, so the array handed to [setItem] is
    the new operation alone.  A failed write leaves the persisted entry as
    it was and logs nothing: the lines the call writes to the console are
    the read error, if the read failed, and the "Enqueued" line, if the
    write succeeded, and no others. *)
Theorem enqueue_result (w : World) (c : EnqueueCall) (read_ok write_ok : bool) :
  let queue := (if read_ok then stored w else []) ++ [operation_of c] in
  exists w',
    run w (enqueue_labels (next_task w) c read_ok write_ok) = Some w'
    /\ settlement (next_task w) (trace w')
       = Some (if write_ok then Resolved (VId (id (operation_of c)))
               else Rejected StorageError)
    /\ writes (next_task w) (trace w') = writes (next_task w) (trace w) ++ [queue]
    /\ storage w' = (if write_ok then Some queue else storage w)
    /\ console (trace w')
       = console (trace w)
         ++ (if read_ok then [] else [LogReadError])
         ++ (if write_ok
             then [LogEnqueued (type (operation_of c)) (id (operation_of c))]
             else []).
Proof.
  intros queue. subst queue.
  unfold enqueue_labels. simpl.
  rewrite lookup_insert_eq. simpl.
  unfold enqueue_read.
  destruct read_ok; simpl; rewrite lookup_insert_eq; simpl;
    unfold enqueue_written; destruct write_ok;
    eexists; (split; [reflexivity|]).
  all: split.
  all: try (simpl; by rewrite settlement_snoc).
  all: split; [|split].
  all: try (simpl; destruct (isOnline w); by rewrite ?storage_processQueue).
  all: simpl; rewrite ?writes_app, ?console_app;
    try (destruct (isOnline w);
         rewrite ?writes_processQueue, ?console_processQueue);
    simpl; rewrite ?writes_app, ?console_app; simpl;
    rewrite ?Nat.eqb_refl; simpl; by rewrite ?app_nil_r, <- ?app_assoc.
Qed.

(** C4, as stated, fails: with a read that succeeds and a write that is
    rejected, the promise of enqueue rejects, no id is returned and nothing
    is logged. *)
Lemma enqueue_rejects_when_write_fails :
  exists w',
    run (init None)
        (enqueue_labels 0 (mkCall "log_expense" (payload sample_expense)
                                  1700000000000 "k3j9x0q2a" 1700000000000)
                        true false) = Some w'
    /\ settlement 0 (trace w') = Some (Rejected StorageError)
    /\ settlement 0 (trace w') <> Some (Resolved (VId "1700000000000_k3j9x0q2a"))
    /\ trace w' = [EvCall 0 ApiEnqueue; EvGetItem 0; EvSetItem 0 [sample_expense];
                   EvSettle 0 (Rejected StorageError)]
    /\ storage w' = None.
Proof.
  eexists. split; [reflexivity|]. by vm_compute.
Qed.

(** C2, at a failing input.  A create_product whose request is answered
    with HTTP 500 is executed "successfully": executeOperation returns, the
    pass counts it in [success], logs it as synced and writes back a queue
    without it; [retries] is never incremented.  The rejected fetch is the
    only failure executeOperation sees after the request is made. *)
Theorem non_2xx_counted_as_success :
  let operation := mkOp "1700000000000_a1b2c3d4e" "create_product"
                        (Some (JObj [("name"%string, JStr "soap")])) 1700000000000 0 in
  is_2xx 500 = false
  /\ executeOperation operation (Responded 500) = inr tt
  /\ executeOperation operation (Failed TimedOut) = inl FetchRejected
  /\ exists w',
      replay_pass (init (Some [operation])) [(operation, Responded 500)] = Some w'
      /\ storage w' = Some []
      /\ settlement 0 (trace w') = Some (Resolved (VTally 1 0))
      /\ In (EvConsole (LogSynced (type operation) (id operation))) (trace w').
Proof.
  intros operation.
  split; [done|]. split; [done|]. split; [done|].
  eexists. split; [reflexivity|]. vm_compute. repeat split; auto 10.
Qed.

(** Every request that gets an HTTP response, of whatever status, makes the
    attempt succeed. *)
Lemma executeOperation_ignores_status (operation : QueuedOperation) (req : Request)
    (status : Z) :
  executeOperation_request operation = inr req ->
  executeOperation operation (Responded status) = inr tt.
Proof. intros H. unfold executeOperation. by rewrite H. Qed.

(** ** A pass among other calls *)

Lemma tasks_processQueue_other (w : World) (tid : nat) :
  tid <> next_task w -> tasks (processQueue w) !! tid = tasks w !! tid.
Proof.
  intros Hne. unfold processQueue; simpl.
  destruct (syncInProgress w || negb (isOnline w)); simpl.
  - by rewrite lookup_delete_ne.
  - by rewrite lookup_insert_ne.
Qed.

(** One move of the environment that is not a storage completion of [tid]
    leaves the parked call [tid] where it is, unless it is the completion
    of its fetch. *)
Lemma step_frame (w w' : World) (l : Label) (tid : nat) (k : Task) :
  wf w ->
  tasks w !! tid = Some k ->
  step w l = Some w' ->
  completes tid l = false ->
  tasks w' !! tid = Some (fold_left (deliver tid) (fetches tid [l]) k).
Proof.
  intros Hwf Hk Hstep Hc.
  pose proof (wf_tasks w Hwf tid k Hk) as Hlt.
  assert (tid <> next_task w) as Hne by lia.
  destruct l; simpl in Hstep, Hc; simpl.
  - injection Hstep as <-. unfold netInfoListener.
    destruct (_ && _); [rewrite tasks_processQueue_other|]; done.
  - by injection Hstep as <-.
  - by injection Hstep as <-.
  - injection Hstep as <-. simpl. by rewrite lookup_insert_ne.
  - injection Hstep as <-. simpl. by rewrite lookup_insert_ne.
  - injection Hstep as <-. simpl. by rewrite lookup_insert_ne.
  - injection Hstep as <-. by rewrite tasks_processQueue_other.
  - injection Hstep as <-. simpl. by rewrite lookup_insert_ne.
  - (* a storage completion of another call *)
    apply Nat.eqb_neq in Hc.
    destruct (tasks w !! tid0) as [k0|] eqn:Hk0; [|done].
    destruct k0; simpl in Hstep; try done.
    + injection Hstep as <-. unfold enqueue_read.
      destruct ok; simpl; by rewrite lookup_insert_ne.
    + injection Hstep as <-. unfold enqueue_written.
      destruct ok; simpl; [|by rewrite lookup_delete_ne].
      rewrite lookup_delete_ne by done.
      destruct (isOnline w); [rewrite tasks_processQueue_other|]; done.
    + destruct ok; injection Hstep as <-; simpl; by rewrite lookup_delete_ne.
    + destruct ok; injection Hstep as <-; simpl; by rewrite lookup_delete_ne.
    + destruct ok; injection Hstep as <-; simpl; by rewrite lookup_insert_ne.
    + injection Hstep as <-. unfold processQueue_written.
      destruct ok; simpl; by rewrite lookup_delete_ne.
    + destruct ok; injection Hstep as <-; simpl; by rewrite lookup_delete_ne.
  - (* a fetch completion *)
    destruct (Nat.eqb_spec tid0 tid) as [->|Hne0]; simpl.
    + rewrite Hk in Hstep. destruct k; simpl in Hstep; try done.
      injection Hstep as <-. simpl. by rewrite lookup_insert_eq.
    + destruct (tasks w !! tid0) as [k0|] eqn:Hk0; [|done].
      destruct k0; simpl in Hstep; try done.
      injection Hstep as <-. simpl. by rewrite lookup_insert_ne.
Qed.

Lemma run_frame (ls : list Label) (tid : nat) :
  forall (w w' : World) (k : Task),
    wf w ->
    tasks w !! tid = Some k ->
    run w ls = Some w' ->
    (forall l, In l ls -> completes tid l = false) ->
    tasks w' !! tid = Some (fold_left (deliver tid) (fetches tid ls) k).
Proof.
  induction ls as [|l ls IH]; intros w w' k Hwf Hk Hrun Hc; simpl in Hrun.
  - by injection Hrun as <-.
  - destruct (step w l) as [w1|] eqn:Hstep; [|done].
    change (l :: ls) with ([l] ++ ls).
    unfold fetches. rewrite flat_map_app, fold_left_app.
    apply (IH w1).
    + by apply (wf_step w w1 l).
    + apply (step_frame w w1 l tid k); auto. apply Hc. by left.
    + done.
    + intros l' Hin. apply Hc. by right.
Qed.

Section FromSnapshot.

Variable snapshot : list QueuedOperation.
Variable tid : nat.

Lemma loop_inv (queue : list QueuedOperation) :
  forall (remaining : list QueuedOperation) (success failed : nat),
    incl queue snapshot ->
    origin snapshot remaining ->
    pass_inv snapshot (snd (processQueue_loop tid queue remaining success failed)).
Proof.
  induction queue as [|operation rest IH]; intros remaining success failed Hq Ho; simpl.
  - done.
  - destruct (executeOperation_request operation) as [err|req]; simpl; [|done].
    unfold processQueue_catch.
    assert (incl rest snapshot) as Hrest by (intros y Hy; apply Hq; by right).
    destruct (retries (retried operation) <? 3);
      match goal with
      | |- context [processQueue_loop tid rest ?r ?s ?f] =>
          specialize (IH r s f Hrest);
          destruct (processQueue_loop tid rest r s f) as [evs k]
      end; simpl in *; apply IH; [|done].
    intros x Hx. apply in_app_or in Hx as [Hx|[<-|[]]]; [by apply Ho|].
    exists operation. split; [|done]. apply Hq. by left.
Qed.

Lemma deliver_inv (k : Task) (out : FetchOutcome) :
  pass_inv snapshot k -> pass_inv snapshot (deliver tid k out).
Proof.
  destruct k; simpl; try done.
  intros [Hq Ho]. unfold processQueue_fetched, processQueue_catch.
  assert (incl rest snapshot) as Hrest by (intros y Hy; apply Hq; by right).
  destruct (executeOperation_settle out); [destruct (retries (retried operation) <? 3)|];
    match goal with
    | |- context [processQueue_loop tid rest ?r ?s ?f] =>
        pose proof (loop_inv rest r s f Hrest) as Hl;
        destruct (processQueue_loop tid rest r s f) as [evs k]
    end; simpl in *; apply Hl; try done.
  intros x Hx. apply in_app_or in Hx as [Hx|[<-|[]]]; [by apply Ho|].
  exists operation. split; [|done]. apply Hq. by left.
Qed.

Lemma parked_after_inv (outs : list FetchOutcome) :
  pass_inv snapshot (parked_after tid snapshot outs).
Proof.
  unfold parked_after.
  assert (pass_inv snapshot (snd (processQueue_loop tid snapshot [] 0 0))) as Hk.
  { apply loop_inv; [apply incl_refl | by intros x []]. }
  revert Hk. generalize (snd (processQueue_loop tid snapshot [] 0 0)).
  induction outs as [|out outs IH]; intros k Hk; simpl; [done|].
  apply IH. by apply deliver_inv.
Qed.

End FromSnapshot.

(** C10. The queue a replay pass writes at line 138 is a function of the
    snapshot it read at line 119 and of how its own fetches ended, whatever
    else happened in between; every entry of it is an operation of the
    snapshot after [retries++].  So an operation that an enqueue persisted
    after the pass read its snapshot and before the pass wrote (its id not
    among those of the snapshot) is not in the persisted queue once the pass
    has written. *)
Theorem written_from_snapshot_only (w w1 w2 w3 : World) (tid : nat) (read_ok : bool)
    (ls : list Label) :
  reachable w ->
  tasks w !! tid = Some ProcessGet ->
  step w (StorageDone tid read_ok) = Some w1 ->
  run w1 ls = Some w2 ->
  (forall l, In l ls -> completes tid l = false) ->
  step w2 (StorageDone tid true) = Some w3 ->
  let snapshot := if read_ok then stored w else [] in
  storage w3 = Some (stored w3)
  /\ to_write (parked_after tid snapshot (fetches tid ls)) = Some (stored w3)
  /\ origin snapshot (stored w3)
  /\ (forall operation,
        (forall y, In y snapshot -> id y <> id operation) ->
        forall x, In x (stored w3) -> id x <> id operation).
Proof.
  intros Hreach Hk Hread Hrun Hc Hwrite snapshot.
  pose proof (reachable_wf w Hreach) as Hwf.
  assert (wf w1) as Hwf1 by (by apply (wf_step w w1 (StorageDone tid read_ok))).
  assert (tasks w1 !! tid = Some (snd (processQueue_loop tid snapshot [] 0 0))) as Hk1.
  { simpl in Hread. rewrite Hk in Hread. simpl in Hread. subst snapshot.
    destruct read_ok; injection Hread as <-; simpl; by rewrite lookup_insert_eq. }
  pose proof (run_frame ls tid w1 w2 _ Hwf1 Hk1 Hrun Hc) as Hk2.
  fold (parked_after tid snapshot (fetches tid ls)) in Hk2.
  pose proof (parked_after_inv snapshot tid (fetches tid ls)) as Hinv.
  simpl in Hwrite. rewrite Hk2 in Hwrite.
  destruct (parked_after tid snapshot (fetches tid ls)) as
    [| | | | |? ? ? ? ?|remaining success failed|]; simpl in Hwrite, Hinv; try done.
  injection Hwrite as <-. unfold stored; simpl.
  repeat split; try done.
  intros operation Hfresh x Hx.
  destruct (Hinv x Hx) as (y & Hy & ->). simpl. by apply Hfresh.
Qed.

Lemma written_from_snapshot_only_witness :
  (stored race_before_write = [sample_expense; sample_restock]
   /\ stored race_end = [retried sample_expense])
  /\ (storage race_end = Some (stored race_end)
      /\ to_write (parked_after 0 [sample_expense] (fetches 0 race_labels))
         = Some (stored race_end)
      /\ origin [sample_expense] (stored race_end)
      /\ (forall operation,
            (forall y, In y [sample_expense] -> id y <> id operation) ->
            forall x, In x (stored race_end) -> id x <> id operation)).
Proof.
  split; [split; vm_compute; reflexivity|].
  apply (written_from_snapshot_only race_start race_read race_before_write race_end
           0 true race_labels).
  - apply (reachable_step (init (Some [sample_expense])) race_start CallProcessQueue);
      [apply reachable_init | vm_compute; reflexivity].
  - vm_compute; reflexivity.
  - vm_compute; reflexivity.
  - vm_compute; reflexivity.
  - intros l [<-|[<-|[<-|[<-|[]]]]]; vm_compute; reflexivity.
  - vm_compute; reflexivity.
Defined.

(** * Further properties of the queue *)

(** ** Reading and clearing *)

Lemma settlement_app_Some (tid : nat) (tr evs : list Event) (r : Settled) :
  settlement tid evs = Some r -> settlement tid (tr ++ evs) = Some r.
Proof.
  unfold settlement. intros H. by rewrite flat_map_app, last_app, H.
Qed.


(** X2. getPendingCount counts what enqueue persisted: after awaited
    enqueue calls made while offline, it resolves with the old length plus
    the number of calls. *)
Theorem pending_count_after_enqueues (w : World) (calls : list EnqueueCall) :
  isOnline w = false ->
  exists w' w'',
    run w (enqueue_all (next_task w) calls) = Some w'
    /\ run w' [CallGetPendingCount; StorageDone (next_task w') true] = Some w''
    /\ settlement (next_task w') (trace w'')
       = Some (Resolved (VCount (length (stored w) + length calls))).
Proof.
  intros Hoff.
  destruct (enqueue_all_offline calls w Hoff) as (w' & Hrun & _ & _ & Hst).
  exists w'. eexists. split; [done|]. split.
  - simpl. rewrite lookup_insert_eq. simpl. reflexivity.
  - simpl. rewrite settlement_snoc.
    change (stored (getPendingCount w')) with (stored w').
    by rewrite Hst, length_app, length_map.
Qed.

Lemma pending_count_after_enqueues_witness :
  exists w' w'',
    run offline_world (enqueue_all (next_task offline_world) sample_calls) = Some w'
    /\ run w' [CallGetPendingCount; StorageDone (next_task w') true] = Some w''
    /\ settlement (next_task w') (trace w'')
       = Some (Resolved (VCount (length (stored offline_world) + length sample_calls))).
Proof.
  apply (pending_count_after_enqueues offline_world sample_calls).
  vm_compute; reflexivity.
Defined.

(** X3. clearQueue is unconditional (no guard on either flag): when its
    [removeItem] succeeds the entry is gone and a following getPendingCount
    resolves with 0; when it is rejected the promise of clearQueue rejects
    and the entry is untouched. *)
Theorem clearQueue_result (w : World) (ok : bool) :
  exists w' w'',
    run w [CallClearQueue; StorageDone (next_task w) ok] = Some w'
    /\ settlement (next_task w) (trace w')
       = Some (if ok then Resolved VVoid else Rejected StorageError)
    /\ storage w' = (if ok then None else storage w)
    /\ isOnline w' = isOnline w
    /\ syncInProgress w' = syncInProgress w
    /\ run w' [CallGetPendingCount; StorageDone (next_task w') true] = Some w''
    /\ settlement (next_task w') (trace w'')
       = Some (Resolved (VCount (if ok then 0 else length (stored w)))).
Proof.
  simpl. rewrite lookup_insert_eq. simpl.
  destruct ok; simpl; eexists; eexists;
    (split; [reflexivity|]);
    (split; [simpl; by rewrite settlement_snoc|]);
    (split; [done|]); (split; [done|]); (split; [done|]);
    (split; [simpl; rewrite lookup_insert_eq; simpl; reflexivity|]);
    simpl; by rewrite settlement_snoc.
Qed.

(** ** Listeners *)








(** What one move of the environment does to the listeners and to
    [isOnline]. *)
Lemma step_listeners_isOnline (w w' : World) (l : Label) :
  step w l = Some w' ->
  listeners w' = match l with
                 | Subscribe callback => listeners w ++ [callback]
                 | Unsubscribe callback =>
                     List.filter (fun x => negb (Nat.eqb x callback)) (listeners w)
                 | _ => listeners w
                 end
  /\ isOnline w' = match l with
                   | NetInfoEvent isConnected => default true isConnected
                   | _ => isOnline w
                   end.
Proof.
  assert (forall v, listeners (processQueue v) = listeners v
                    /\ isOnline (processQueue v) = isOnline v) as Hpq.
  { intros v. unfold processQueue; simpl.
    by destruct (syncInProgress v || negb (isOnline v)). }
  intros Hstep. destruct l; simpl in Hstep;
    [ | by injection Hstep as <- | by injection Hstep as <- | by injection Hstep as <-
      | by injection Hstep as <- | by injection Hstep as <- |
      | by injection Hstep as <- | | ].
  - injection Hstep as <-. unfold netInfoListener.
    destruct (_ && _); [|done].
    match goal with
    | |- context [processQueue ?v] => destruct (Hpq v) as [H1 H2]; by rewrite H1, H2
    end.
  - injection Hstep as <-. apply Hpq.
  - destruct (tasks w !! tid) as [k|]; [|done].
    destruct k; simpl in Hstep; try done;
      try (destruct ok; by injection Hstep as <-).
    all: injection Hstep as <-.
    all: unfold enqueue_written, processQueue_written; destruct ok; try done; simpl.
    all: destruct (isOnline w) eqn:Hon; simpl; try done.
    all: match goal with
         | |- context [processQueue ?v] => destruct (Hpq v) as [H1 H2]; by rewrite H1, H2
         end.
  - destruct (tasks w !! tid) as [k|]; [|done].
    destruct k; simpl in Hstep; try done. by injection Hstep as <-.
Qed.

(** X5. getIsOnline returns what the last NetInfo event reported ([null]
    read as online), and the initial [true] as long as there was none: no
    other call or completion changes [isOnline]. *)
Theorem isOnline_last_reported (ls : list Label) :
  forall w w' : World,
    run w ls = Some w' ->
    getIsOnline w' = last_reported (isOnline w) ls.
Proof.
  induction ls as [|l ls IH]; intros w w' Hrun; simpl in Hrun.
  - by injection Hrun as <-.
  - destruct (step w l) as [w1|] eqn:Hstep; [|done].
    destruct (step_listeners_isOnline w w1 l Hstep) as [_ Hon].
    rewrite (IH w1 w' Hrun), Hon. unfold last_reported. simpl. by destruct l.
Qed.

Lemma isOnline_last_reported_witness :
  getIsOnline (world_of (run (init None)
                 [NetInfoEvent (Some false); CallGetQueue; NetInfoEvent None;
                  StorageDone 0 true]))
  = last_reported (isOnline (init None))
      [NetInfoEvent (Some false); CallGetQueue; NetInfoEvent None; StorageDone 0 true].
Proof.
  apply (isOnline_last_reported _ (init None)).
  vm_compute; reflexivity.
Defined.






(** ** What changes the persisted entry and the flags *)

(** X7. The persisted entry changes only when a [setItem] or [removeItem]
    completes successfully: calls, NetInfo events, fetch completions, reads
    and rejected writes leave it as it is. *)
Theorem storage_changed_only_by_writes (w w' : World) (l : Label) :
  step w l = Some w' ->
  storage w' = storage w
  \/ exists tid k, l = StorageDone tid true /\ tasks w !! tid = Some k /\ is_write k = true.
Proof.
  intros Hstep. destruct l; simpl in Hstep;
    try (injection Hstep as <-; left; done).
  - injection Hstep as <-. left. unfold netInfoListener.
    destruct (_ && _); [by rewrite storage_processQueue | done].
  - injection Hstep as <-. left. apply storage_processQueue.
  - destruct (tasks w !! tid) as [k|] eqn:Hk; [|done].
    destruct ok.
    + destruct k; simpl in Hstep; try done;
        try (right; exists tid; eexists; by repeat split);
        injection Hstep as <-; left; done.
    + left. destruct k; simpl in Hstep; try done; by injection Hstep as <-.
  - destruct (tasks w !! tid) as [k|]; [|done].
    destruct k; simpl in Hstep; try done. injection Hstep as <-. by left.
Qed.

Lemma storage_changed_only_by_writes_witness :
  let w := world_of (run (init (Some [sample_expense])) [CallClearQueue]) in
  let w' := world_of (step w (StorageDone 0 true)) in
  (storage w = Some [sample_expense] /\ storage w' = None)
  /\ (storage w' = storage w
      \/ exists tid k, StorageDone 0 true = StorageDone tid true
                       /\ tasks w !! tid = Some k /\ is_write k = true).
Proof.
  intros w w'. split; [split; vm_compute; reflexivity|].
  apply (storage_changed_only_by_writes w w' (StorageDone 0 true)).
  vm_compute; reflexivity.
Defined.

Lemma pass_kept_insert (m : gmap nat Task) (i : nat) (x : Task) :
  (exists t k, m !! t = Some k /\ is_pass k = true) ->
  (forall k0, m !! i = Some k0 -> is_pass k0 = false) ->
  exists t k, <[i := x]> m !! t = Some k /\ is_pass k = true.
Proof.
  intros (t & k & Hk & Hp) Hi. exists t, k. split; [|done].
  rewrite lookup_insert_ne; [done|].
  intros ->. rewrite (Hi k Hk) in Hp. done.
Qed.

Lemma pass_kept_delete (m : gmap nat Task) (i : nat) :
  (exists t k, m !! t = Some k /\ is_pass k = true) ->
  (forall k0, m !! i = Some k0 -> is_pass k0 = false) ->
  exists t k, delete i m !! t = Some k /\ is_pass k = true.
Proof.
  intros (t & k & Hk & Hp) Hi. exists t, k. split; [|done].
  rewrite lookup_delete_ne; [done|].
  intros ->. rewrite (Hi k Hk) in Hp. done.
Qed.

Lemma busy_processQueue (w : World) :
  wf w ->
  (syncInProgress w = true -> pass_in_flight w) ->
  syncInProgress (processQueue w) = true ->
  pass_in_flight (processQueue w).
Proof.
  intros Hwf Hbusy. unfold processQueue, pass_in_flight; simpl.
  destruct (syncInProgress w) eqn:Hsync; simpl.
  - intros _. apply pass_kept_delete; [by apply Hbusy|].
    intros k0 Hk0. pose proof (wf_tasks w Hwf _ _ Hk0). lia.
  - destruct (isOnline w); simpl; [|intros Hs; congruence].
    intros _. exists (next_task w), ProcessGet. by rewrite lookup_insert_eq.
Qed.

Lemma busy_step (w w' : World) (l : Label) :
  wf w ->
  (syncInProgress w = true -> pass_in_flight w) ->
  step w l = Some w' ->
  syncInProgress w' = true -> pass_in_flight w'.
Proof.
  intros Hwf Hbusy Hstep.
  assert (forall k0, tasks w !! next_task w = Some k0 -> is_pass k0 = false) as Hfresh.
  { intros k0 Hk0. pose proof (wf_tasks w Hwf _ _ Hk0). lia. }
  destruct l; simpl in Hstep.
  - injection Hstep as <-. unfold netInfoListener.
    match goal with
    | |- context [if _ then processQueue ?v else _] =>
        assert (wf v) as Hv
          by (apply wf_emits; [by apply wf_set_isOnline|];
              intros e t Hin He; apply in_map_iff in Hin as (cb & <- & _); done);
        destruct (_ && _); [by apply busy_processQueue|done]
    end.
  - by injection Hstep as <-.
  - by injection Hstep as <-.
  - injection Hstep as <-. unfold pass_in_flight. simpl. intros Hs.
    apply pass_kept_insert; [by apply Hbusy | done].
  - injection Hstep as <-. unfold pass_in_flight. simpl. intros Hs.
    apply pass_kept_insert; [by apply Hbusy | done].
  - injection Hstep as <-. unfold pass_in_flight. simpl. intros Hs.
    apply pass_kept_insert; [by apply Hbusy | done].
  - injection Hstep as <-. by apply busy_processQueue.
  - injection Hstep as <-. unfold pass_in_flight. simpl. intros Hs.
    apply pass_kept_insert; [by apply Hbusy | done].
  - destruct (tasks w !! tid) as [k|] eqn:Hk; [|done].
    assert (is_pass k = false ->
            forall k0, tasks w !! tid = Some k0 -> is_pass k0 = false) as Hself.
    { intros Hp k0 Hk0. congruence. }
    destruct k; simpl in Hstep; try done.
    + injection Hstep as <-. unfold enqueue_read, pass_in_flight.
      destruct ok; simpl; intros Hs;
        (apply pass_kept_insert; [by apply Hbusy | by apply Hself]).
    + injection Hstep as <-. unfold enqueue_written.
      destruct ok.
      * match goal with
        | |- context [if _ then processQueue ?v else _] =>
            assert (wf v) as Hv
              by (apply wf_emits; [by apply wf_set_storage|];
                  intros e t [<-|[]]; simpl; congruence);
            assert (syncInProgress v = true -> pass_in_flight v) as Hbv by exact Hbusy
        end.
        destruct (isOnline _).
        -- intros Hs. unfold pass_in_flight. simpl.
           apply pass_kept_delete; [by apply busy_processQueue|].
           intros k0 Hk0. rewrite tasks_processQueue_other in Hk0.
           ++ simpl in Hk0. rewrite Hk in Hk0. by injection Hk0 as <-.
           ++ simpl. pose proof (wf_tasks w Hwf _ _ Hk). lia.
        -- unfold pass_in_flight. simpl. intros Hs.
           apply pass_kept_delete; [by apply Hbusy | by apply Hself].
      * unfold pass_in_flight. simpl. intros Hs.
        apply pass_kept_delete; [by apply Hbusy | by apply Hself].
    + destruct ok; injection Hstep as <-; unfold pass_in_flight; simpl; intros Hs;
        (apply pass_kept_delete; [by apply Hbusy | by apply Hself]).
    + destruct ok; injection Hstep as <-; unfold pass_in_flight; simpl; intros Hs;
        (apply pass_kept_delete; [by apply Hbusy | by apply Hself]).
    + destruct ok; injection Hstep as <-; intros _; unfold pass_in_flight; simpl;
        eexists tid, _; (split; [apply lookup_insert_eq|]);
        first [apply loop_is_pass | done].
    + injection Hstep as <-. unfold processQueue_written. by destruct ok.
    + destruct ok; injection Hstep as <-; unfold pass_in_flight; simpl; intros Hs;
        (apply pass_kept_delete; [by apply Hbusy | by apply Hself]).
  - destruct (tasks w !! tid) as [k|] eqn:Hk; [|done].
    destruct k; simpl in Hstep; try done.
    injection Hstep as <-. intros _. unfold pass_in_flight. simpl.
    eexists tid, _. split; [apply lookup_insert_eq|]. apply fetched_is_pass.
Qed.

(** X8. [syncInProgress] is true exactly while a call of processQueue is
    parked at one of its [await]s: the [finally] of line 139 releases it on
    every way out, so the flag never stays set without a pass in flight. *)
Theorem flag_tracks_pass (w : World) :
  reachable w -> (syncInProgress w = true <-> pass_in_flight w).
Proof.
  intros Hreach. split; [|by apply pass_in_flight_sync, reachable_wf].
  induction Hreach as [s|w w' l Hreach IH Hstep]; [done|].
  by apply (busy_step w w' l); [apply reachable_wf| |].
Qed.

Lemma flag_tracks_pass_witness :
  let w := world_of (run (init (Some [sample_expense]))
                       [CallProcessQueue; StorageDone 0 true;
                        FetchDone 0 (Failed TimedOut); StorageDone 0 false]) in
  syncInProgress w = true <-> pass_in_flight w.
Proof.
  intros w. apply (flag_tracks_pass w).
  apply (reachable_run (init (Some [sample_expense])) w
           [CallProcessQueue; StorageDone 0 true;
            FetchDone 0 (Failed TimedOut); StorageDone 0 false]);
    [apply reachable_init | vm_compute; reflexivity].
Defined.

(** ** Storage failures during a pass and during enqueue *)

(** X9. When the final [setItem] of a replay pass is rejected, the promise
    of processQueue rejects with the storage error although every operation
    of the snapshot was executed; the persisted entry is unchanged (so the
    successes and the incremented retries of the pass are not recorded) and
    [syncInProgress] is released. *)
Theorem pass_write_failure (w : World) (attempts : list Attempt) :
  ready w ->
  stored w = List.map fst attempts ->
  exists w',
    run w (CallProcessQueue :: failed_write_labels (next_task w) attempts) = Some w'
    /\ executions (next_task w) (trace w') = stored w
    /\ settlement (next_task w) (trace w') = Some (Rejected StorageError)
    /\ storage w' = storage w
    /\ syncInProgress w' = false
    /\ isOnline w' = true.
Proof.
  intros (Hreach & Hsync & Hon) Hq.
  destruct (run_loop (next_task w) attempts [] 0 0
              (suspend (next_task w) ProcessGet
                 (emit (EvGetItem (next_task w))
                    (set_syncInProgress true (begin_call ApiProcessQueue w)))))
    as (evs & Hrun & Hex).
  eexists. split.
  - unfold processQueue, failed_write_labels. simpl. unfold processQueue. simpl.
    rewrite Hsync, Hon. simpl.
    rewrite lookup_insert_eq. simpl.
    unfold stored in Hq. simpl. unfold stored; simpl. rewrite Hq.
    rewrite run_app, Hrun. simpl.
    rewrite lookup_insert_eq. simpl. reflexivity.
  - simpl. repeat split; try done.
    + rewrite !executions_app, Hex. simpl.
      rewrite (executions_fresh w) by (auto using reachable_wf).
      simpl. by rewrite app_nil_r.
    + by rewrite settlement_snoc.
Qed.

Lemma pass_write_failure_witness :
  exists w',
    run (init (Some [sample_expense; sample_restock]))
        (CallProcessQueue
           :: failed_write_labels 0 [(sample_expense, Failed TimedOut);
                                     (sample_restock, Responded 200)]) = Some w'
    /\ executions 0 (trace w') = [sample_expense; sample_restock]
    /\ settlement 0 (trace w') = Some (Rejected StorageError)
    /\ storage w' = Some [sample_expense; sample_restock]
    /\ syncInProgress w' = false
    /\ isOnline w' = true.
Proof.
  apply (pass_write_failure (init (Some [sample_expense; sample_restock]))
           [(sample_expense, Failed TimedOut); (sample_restock, Responded 200)]).
  - split; [apply reachable_init | split; reflexivity].
  - reflexivity.
Defined.




(** X11. enqueue makes its fire-and-forget processQueue call exactly when
    its write succeeded and [isOnline] is true, and does not wait for it:
    when the guard lets the call through, the promise of enqueue is
    resolved with the id while the pass is still parked at its read, with
    [syncInProgress] set. *)
Theorem enqueue_triggers_replay (w : World) (c : EnqueueCall) (read_ok write_ok : bool) :
  exists w',
    run w (enqueue_labels (next_task w) c read_ok write_ok) = Some w'
    /\ processQueue_calls (trace w')
       = processQueue_calls (trace w) + (if write_ok && isOnline w then 1 else 0)
    /\ (if write_ok && isOnline w && negb (syncInProgress w)
        then tasks w' !! S (next_task w) = Some ProcessGet
             /\ syncInProgress w' = true
             /\ settlement (next_task w) (trace w')
                = Some (Resolved (VId (id (operation_of c))))
        else syncInProgress w' = syncInProgress w).
Proof.
  unfold enqueue_labels. simpl.
  rewrite lookup_insert_eq. simpl.
  unfold enqueue_read.
  destruct read_ok; simpl; rewrite lookup_insert_eq; simpl;
    unfold enqueue_written; destruct write_ok; simpl;
    eexists; (split; [reflexivity|]); simpl.
  all: destruct (isOnline w) eqn:Hon; simpl.
  all: try (unfold processQueue; simpl; rewrite ?Hon; simpl;
            destruct (syncInProgress w) eqn:Hsync; simpl).
  all: rewrite ?processQueue_calls_app; unfold processQueue_calls; simpl;
    rewrite ?length_app; simpl.
  all: repeat split; try lia; try done.
  all: try (rewrite lookup_delete_ne by lia; by rewrite lookup_insert_eq).
  all: try (by rewrite settlement_snoc).
Qed.


(** ** Overlapping enqueue calls *)

Lemma run_cons (w w' : World) (l : Label) (ls : list Label) :
  step w l = Some w' -> run w (l :: ls) = run w' ls.
Proof. intros H. simpl. by rewrite H. Qed.

Lemma step_enqueue_read (v : World) (tid : nat) (operation : QueuedOperation) (ok : bool) :
  tasks v !! tid = Some (EnqueueGet operation) ->
  step v (StorageDone tid ok) = Some (enqueue_read tid operation ok v).
Proof. intros H. simpl. by rewrite H. Qed.

Lemma step_enqueue_written (v : World) (tid : nat) (operation : QueuedOperation)
    (queue : list QueuedOperation) (ok : bool) :
  tasks v !! tid = Some (EnqueueSet operation queue) ->
  step v (StorageDone tid ok) = Some (enqueue_written tid operation queue ok v).
Proof. intros H. simpl. by rewrite H. Qed.

Lemma enqueue_read_ok (v : World) (tid : nat) (operation : QueuedOperation) :
  enqueue_read tid operation true v
  = mkWorld (isOnline v) (syncInProgress v) (listeners v) (storage v)
      (<[tid := EnqueueSet operation (stored v ++ [operation])]> (tasks v))
      (next_task v)
      (trace v ++ [EvSetItem tid (stored v ++ [operation])]).
Proof. done. Qed.

Lemma enqueue_written_offline (v : World) (tid : nat) (operation : QueuedOperation)
    (queue : list QueuedOperation) :
  isOnline v = false ->
  enqueue_written tid operation queue true v
  = mkWorld false (syncInProgress v) (listeners v) (Some queue)
      (delete tid (tasks v)) (next_task v)
      ((trace v ++ [EvConsole (LogEnqueued (type operation) (id operation))])
         ++ [EvSettle tid (Resolved (VId (id operation)))]).
Proof.
  intros Hoff. unfold enqueue_written. simpl. rewrite Hoff. simpl.
  unfold settle, emit, emits, set_tasks. simpl. by rewrite Hoff.
Qed.

Lemma settlement_snoc_other (tid : nat) (tr : list Event) (e : Event) :
  (forall r, e <> EvSettle tid r) ->
  settlement tid (tr ++ [e]) = settlement tid tr.
Proof.
  intros He. unfold settlement. rewrite flat_map_app.
  destruct e; simpl; try by rewrite app_nil_r.
  destruct (Nat.eqb_spec tid0 tid) as [->|_]; [by destruct (He result)|].
  by rewrite app_nil_r.
Qed.

Lemma writes_snoc_other (tid : nat) (tr : list Event) (e : Event) :
  (forall data, e <> EvSetItem tid data) ->
  writes tid (tr ++ [e]) = writes tid tr.
Proof.
  intros He. unfold writes. rewrite flat_map_app.
  destruct e; simpl; try by rewrite app_nil_r.
  destruct (Nat.eqb_spec tid0 tid) as [->|_]; [by destruct (He data)|].
  by rewrite app_nil_r.
Qed.

(** X12. enqueue is a read-modify-write over two [await]s with no guard:
    of two calls made while offline whose reads both complete before either
    write, the first writes the old queue followed by its operation, the
    second then replaces that by the old queue followed by its own
    operation alone; both promises resolve with an id. *)
Theorem overlapping_enqueues_lose_one (w : World) (c1 c2 : EnqueueCall) :
  isOnline w = false ->
  exists w',
    run w (overlapping_enqueues (next_task w) c1 c2) = Some w'
    /\ storage w' = Some (stored w ++ [operation_of c2])
    /\ settlement (next_task w) (trace w') = Some (Resolved (VId (id (operation_of c1))))
    /\ settlement (S (next_task w)) (trace w')
       = Some (Resolved (VId (id (operation_of c2))))
    /\ writes (next_task w) (trace w')
       = writes (next_task w) (trace w) ++ [stored w ++ [operation_of c1]].
Proof.
  intros Hoff.
  set (t := next_task w).
  set (v1 := enqueue (call_type c1) (call_payload c1) (call_now_id c1) (call_rnd c1)
               (call_now_ts c1) w).
  set (v2 := enqueue (call_type c2) (call_payload c2) (call_now_id c2) (call_rnd c2)
               (call_now_ts c2) v1).
  set (v3 := enqueue_read t (operation_of c1) true v2).
  set (v4 := enqueue_read (S t) (operation_of c2) true v3).
  set (v5 := enqueue_written t (operation_of c1) (stored w ++ [operation_of c1]) true v4).
  set (v6 := enqueue_written (S t) (operation_of c2) (stored w ++ [operation_of c2]) true v5).
  assert (tasks v2 = <[S t := EnqueueGet (operation_of c2)]>
                       (<[t := EnqueueGet (operation_of c1)]> (tasks w))) as T2 by done.
  assert (v3 = mkWorld false (syncInProgress w) (listeners w) (storage w)
                 (<[t := EnqueueSet (operation_of c1) (stored w ++ [operation_of c1])]>
                    (tasks v2))
                 (S (S t))
                 (trace v2 ++ [EvSetItem t (stored w ++ [operation_of c1])])) as E3.
  { unfold v3. rewrite enqueue_read_ok. simpl. by rewrite Hoff. }
  assert (v4 = mkWorld false (syncInProgress w) (listeners w) (storage w)
                 (<[S t := EnqueueSet (operation_of c2) (stored w ++ [operation_of c2])]>
                    (tasks v3))
                 (S (S t))
                 (trace v3 ++ [EvSetItem (S t) (stored w ++ [operation_of c2])])) as E4.
  { unfold v4. rewrite enqueue_read_ok. by rewrite E3. }
  assert (v5 = mkWorld false (syncInProgress w) (listeners w)
                 (Some (stored w ++ [operation_of c1]))
                 (delete t (tasks v4)) (S (S t))
                 ((trace v4
                     ++ [EvConsole (LogEnqueued (type (operation_of c1))
                                                (id (operation_of c1)))])
                    ++ [EvSettle t (Resolved (VId (id (operation_of c1))))])) as E5.
  { unfold v5. rewrite enqueue_written_offline by (by rewrite E4). by rewrite E4. }
  assert (v6 = mkWorld false (syncInProgress w) (listeners w)
                 (Some (stored w ++ [operation_of c2]))
                 (delete (S t) (tasks v5)) (S (S t))
                 ((trace v5
                     ++ [EvConsole (LogEnqueued (type (operation_of c2))
                                                (id (operation_of c2)))])
                    ++ [EvSettle (S t) (Resolved (VId (id (operation_of c2))))])) as E6.
  { unfold v6. rewrite enqueue_written_offline by (by rewrite E5). by rewrite E5. }
  exists v6. split.
  - unfold overlapping_enqueues. fold t.
    rewrite (run_cons w v1) by done.
    rewrite (run_cons v1 v2) by done.
    rewrite (run_cons v2 v3).
    2: { apply step_enqueue_read. rewrite T2.
         rewrite lookup_insert_ne by lia. by rewrite lookup_insert_eq. }
    rewrite (run_cons v3 v4).
    2: { apply step_enqueue_read. rewrite E3. simpl. rewrite ?T2.
         repeat first [ rewrite lookup_insert_eq
                      | rewrite lookup_insert_ne by lia
                      | rewrite lookup_delete_ne by lia ]. done. }
    rewrite (run_cons v4 v5).
    2: { apply step_enqueue_written. rewrite E4. simpl. rewrite ?E3. simpl.
         repeat first [ rewrite lookup_insert_eq
                      | rewrite lookup_insert_ne by lia
                      | rewrite lookup_delete_ne by lia ]. done. }
    rewrite (run_cons v5 v6); [done|].
    apply step_enqueue_written. rewrite E5. simpl. rewrite ?E4. simpl.
    repeat first [ rewrite lookup_insert_eq
                 | rewrite lookup_insert_ne by lia
                 | rewrite lookup_delete_ne by lia ]. done.
  - assert (trace v2 = (((trace w ++ [EvCall t ApiEnqueue]) ++ [EvGetItem t])
                          ++ [EvCall (S t) ApiEnqueue]) ++ [EvGetItem (S t)]) as E2 by done.
    clearbody v1 v2 v3 v4 v5 v6.
    rewrite E6. simpl. split; [done|]. split; [|split].
    + rewrite settlement_snoc_other by (intros r [= Hr]; lia).
      rewrite settlement_snoc_other by done.
      rewrite E5. simpl. by rewrite settlement_snoc.
    + by rewrite settlement_snoc.
    + rewrite writes_snoc_other by done.
      rewrite writes_snoc_other by done.
      rewrite E5. simpl.
      rewrite writes_snoc_other by done.
      rewrite writes_snoc_other by done.
      rewrite E4. simpl.
      rewrite writes_snoc_other by (intros data [= Hd]; lia).
      rewrite E3. simpl. rewrite writes_app, writes_set_same. f_equal.
      rewrite E2.
      rewrite writes_snoc_other by done.
      rewrite writes_snoc_other by done.
      rewrite writes_snoc_other by done.
      by rewrite writes_snoc_other by done.
Qed.
Lemma overlapping_enqueues_lose_one_witness :
  let c1 := mkCall "log_expense" (payload sample_expense) 1700000000000 "k3j9x0q2a"
                   1700000000000 in
  let c2 := mkCall "restock" (payload sample_restock) 1700000000500 "p0o9i8u7y"
                   1700000000500 in
  exists w',
    run offline_world (overlapping_enqueues (next_task offline_world) c1 c2) = Some w'
    /\ storage w' = Some (stored offline_world ++ [operation_of c2])
    /\ settlement (next_task offline_world) (trace w')
       = Some (Resolved (VId (id (operation_of c1))))
    /\ settlement (S (next_task offline_world)) (trace w')
       = Some (Resolved (VId (id (operation_of c2))))
    /\ writes (next_task offline_world) (trace w')
       = writes (next_task offline_world) (trace offline_world)
         ++ [stored offline_world ++ [operation_of c1]].
Proof.
  intros c1 c2.
  apply (overlapping_enqueues_lose_one offline_world c1 c2).
  vm_compute; reflexivity.
Defined.

(** ** What executeOperation does before its fetch *)


(** ** The retry budget as an invariant of the persisted queue *)

Lemma within_budget_app (xs ys : list QueuedOperation) :
  within_budget xs -> within_budget ys -> within_budget (xs ++ ys).
Proof.
  intros Hx Hy x Hin. apply in_app_or in Hin as [H|H]; auto.
Qed.

Lemma within_budget_catch (operation : QueuedOperation)
    (remaining : list QueuedOperation) (failed : nat) :
  within_budget remaining ->
  within_budget (fst (fst (processQueue_catch operation remaining failed))).
Proof.
  intros Hrem. unfold processQueue_catch.
  destruct (Nat.ltb_spec (retries (retried operation)) 3) as [Hlt|Hge]; simpl; [|done].
  apply within_budget_app; [done|].
  intros x [<-|[]]. exact Hlt.
Qed.

Lemma loop_budget (tid : nat) (queue : list QueuedOperation) :
  forall remaining success failed,
    within_budget remaining ->
    task_budget (snd (processQueue_loop tid queue remaining success failed)).
Proof.
  induction queue as [|operation rest IH]; intros remaining success failed Hrem; simpl.
  - exact Hrem.
  - destruct (executeOperation_request operation) as [e|req]; simpl; [|exact Hrem].
    pose proof (within_budget_catch operation remaining failed Hrem) as Hc.
    destruct (processQueue_catch operation remaining failed) as [[remaining' failed'] logged].
    simpl in Hc.
    specialize (IH remaining' success failed' Hc).
    destruct (processQueue_loop tid rest remaining' success failed') as [evs k].
    exact IH.
Qed.

Lemma fetched_budget (tid : nat) (operation : QueuedOperation)
    (rest remaining : list QueuedOperation) (success failed : nat) (out : FetchOutcome) :
  within_budget remaining ->
  task_budget (snd (processQueue_fetched tid operation rest remaining success failed out)).
Proof.
  intros Hrem. unfold processQueue_fetched.
  destruct (executeOperation_settle out) as [e|v].
  - pose proof (within_budget_catch operation remaining failed Hrem) as Hc.
    destruct (processQueue_catch operation remaining failed) as [[remaining' failed'] logged].
    simpl in Hc.
    pose proof (loop_budget tid rest remaining' success failed' Hc) as IH.
    destruct (processQueue_loop tid rest remaining' success failed') as [evs k].
    exact IH.
  - pose proof (loop_budget tid rest remaining (S success) failed Hrem) as IH.
    destruct (processQueue_loop tid rest remaining (S success) failed) as [evs k].
    exact IH.
Qed.

Lemma budget_frame (w w' : World) :
  storage w' = storage w -> tasks w' = tasks w -> budget_inv w -> budget_inv w'.
Proof.
  intros Hs Ht [Hq Hk]. split.
  - unfold stored. by rewrite Hs.
  - intros tid k. rewrite Ht. apply Hk.
Qed.

Lemma budget_suspend (tid : nat) (k : Task) (w : World) :
  task_budget k -> budget_inv w -> budget_inv (suspend tid k w).
Proof.
  intros Hk [Hq Ht]. split; [exact Hq|].
  intros t k'. simpl.
  destruct (decide (t = tid)) as [->|Hne].
  - rewrite lookup_insert_eq. by intros [= <-].
  - rewrite lookup_insert_ne; [apply Ht|done].
Qed.

Lemma budget_settle (tid : nat) (r : Settled) (w : World) :
  budget_inv w -> budget_inv (settle tid r w).
Proof.
  intros [Hq Ht]. split; [exact Hq|].
  intros t k. simpl.
  destruct (decide (t = tid)) as [->|Hne].
  - by rewrite lookup_delete_eq.
  - rewrite lookup_delete_ne; [apply Ht|done].
Qed.

Lemma budget_set_storage (s : option (list QueuedOperation)) (w : World) :
  within_budget (default [] s) -> budget_inv w -> budget_inv (set_storage s w).
Proof.
  intros Hs [_ Ht]. split; [exact Hs|exact Ht].
Qed.

Lemma budget_proceed (tid : nat) (r : list Event * Task) (w : World) :
  task_budget (snd r) -> budget_inv w -> budget_inv (proceed tid r w).
Proof.
  intros Hk Hw. unfold proceed. apply budget_suspend; [done|].
  by apply (budget_frame w).
Qed.

Lemma budget_processQueue (w : World) :
  budget_inv w -> budget_inv (processQueue w).
Proof.
  intros Hw. unfold processQueue.
  destruct (syncInProgress (begin_call ApiProcessQueue w)
            || negb (isOnline (begin_call ApiProcessQueue w))).
  - apply budget_settle. by apply (budget_frame w).
  - apply budget_suspend; [done|]. by apply (budget_frame w).
Qed.

Lemma budget_resume (ok : bool) (w : World) :
  budget_inv w ->
  within_budget (fst (getQueue_resume ok w)) /\ budget_inv (snd (getQueue_resume ok w)).
Proof.
  intros Hw. unfold getQueue_resume. destruct ok; simpl.
  - split; [apply Hw|done].
  - split; [by intros x []|by apply (budget_frame w)].
Qed.

Lemma step_budget (w w' : World) (l : Label) :
  budget_inv w -> step w l = Some w' -> budget_inv w'.
Proof.
  intros Hw Hstep. destruct l; simpl in Hstep.
  - injection Hstep as <-. unfold netInfoListener.
    match goal with |- budget_inv (if ?c then _ else _) => destruct c end.
    + apply budget_processQueue. by apply (budget_frame w).
    + by apply (budget_frame w).
  - injection Hstep as <-. by apply (budget_frame w).
  - injection Hstep as <-. by apply (budget_frame w).
  - injection Hstep as <-. unfold enqueue.
    apply budget_suspend; [simpl; lia|]. by apply (budget_frame w).
  - injection Hstep as <-. unfold getQueue.
    apply budget_suspend; [done|]. by apply (budget_frame w).
  - injection Hstep as <-. unfold getPendingCount.
    apply budget_suspend; [done|]. by apply (budget_frame w).
  - injection Hstep as <-. by apply budget_processQueue.
  - injection Hstep as <-. unfold clearQueue.
    apply budget_suspend; [done|]. by apply (budget_frame w).
  - destruct (tasks w !! tid) as [k|] eqn:Hk; [|done].
    pose proof (proj2 Hw tid k Hk) as Hb.
    destruct (budget_resume ok w Hw) as [Hq Hr].
    destruct k; simpl in Hstep, Hb.
    + injection Hstep as <-. unfold enqueue_read.
      destruct (getQueue_resume ok w) as [queue w0]. simpl in Hq, Hr.
      assert (Hnew : within_budget (queue ++ [operation])).
      { apply within_budget_app; [done|]. by intros x [<-|[]]. }
      apply budget_suspend; [exact Hnew|]. by apply (budget_frame w0).
    + injection Hstep as <-. unfold enqueue_written. destruct ok.
      * apply budget_settle.
        assert (H0 : budget_inv
                       (emit (EvConsole (LogEnqueued (type operation) (id operation)))
                          (set_storage (Some queue) w))).
        { apply (budget_frame (set_storage (Some queue) w)); [done|done|].
          by apply budget_set_storage. }
        match goal with |- budget_inv (if ?c then _ else _) => destruct c end;
          [by apply budget_processQueue|done].
      * by apply budget_settle.
    + destruct (getQueue_resume ok w) as [queue w0]. injection Hstep as <-.
      by apply budget_settle.
    + destruct (getQueue_resume ok w) as [queue w0]. injection Hstep as <-.
      by apply budget_settle.
    + destruct (getQueue_resume ok w) as [queue w0]. injection Hstep as <-.
      apply budget_proceed; [|done]. apply loop_budget. by intros x [].
    + done.
    + injection Hstep as <-. unfold processQueue_written. destruct ok.
      * apply budget_settle. apply (budget_frame (set_storage (Some remaining) w)); [done|done|].
        by apply budget_set_storage.
      * apply budget_settle. by apply (budget_frame w).
    + destruct ok; injection Hstep as <-.
      * apply budget_settle. apply budget_set_storage; [by intros x []|done].
      * by apply budget_settle.
  - destruct (tasks w !! tid) as [k|] eqn:Hk; [|done].
    pose proof (proj2 Hw tid k Hk) as Hb.
    destruct k; simpl in Hstep; try done.
    injection Hstep as <-. apply budget_proceed; [|done].
    by apply fetched_budget.
Qed.

Lemma run_budget (ls : list Label) :
  forall w w', budget_inv w -> run w ls = Some w' -> budget_inv w'.
Proof.
  induction ls as [|l ls IH]; intros w w' Hw Hrun; simpl in Hrun.
  - by injection Hrun as <-.
  - destruct (step w l) as [w1|] eqn:Hstep; [|done].
    apply (IH w1 w'); [|done]. by apply (step_budget w w1 l).
Qed.

(** X14. The bound [retries < 3] of the data model is an invariant of the
    persisted queue: when the entry the app starts with respects it (no
    entry, in particular), then after any schedule whatsoever, overlapping
    calls and failing storage calls included, every persisted operation has
    fewer than 3 retries. *)
Theorem persisted_retries_below_3 (s : option (list QueuedOperation))
    (ls : list Label) (w : World) (x : QueuedOperation) :
  within_budget (default [] s) ->
  run (init s) ls = Some w ->
  In x (stored w) ->
  retries x < 3.
Proof.
  intros Hs Hrun Hin.
  assert (H0 : budget_inv (init s)).
  { split; [exact Hs|]. intros tid k. simpl. by rewrite lookup_empty. }
  destruct (run_budget ls (init s) w H0 Hrun) as [Hq _].
  by apply Hq.
Qed.

Lemma persisted_retries_below_3_witness : retries (retried sample_order) < 3.
Proof.
  apply (persisted_retries_below_3
           (Some (List.map fst sample_attempts))
           (CallProcessQueue :: pass_labels 0 sample_attempts)
           (world_of (run (init (Some (List.map fst sample_attempts)))
                          (CallProcessQueue :: pass_labels 0 sample_attempts)))).
  - intros x [<-|[<-|[<-|[]]]]; simpl; lia.
  - vm_compute; reflexivity.
  - vm_compute. left; reflexivity.
Defined.

(** ** The exact trace of a replay pass *)

Lemma run_loop_trace (tid : nat) (attempts : list Attempt) :
  forall (remaining : list QueuedOperation) (success failed : nat) (w : World),
    run (proceed tid (processQueue_loop tid (List.map fst attempts) remaining success failed) w)
        (fetch_labels tid attempts)
    = Some (proceed tid (flat_map (attempt_events tid) attempts
                           ++ [EvSetItem tid (remaining ++ kept attempts)],
                         ProcessSet (remaining ++ kept attempts)
                                    (success + synced attempts)
                                    (failed + dropped attempts)) w).
Proof.
  induction attempts as [|[operation out] attempts IH]; intros remaining success failed w.
  - simpl. unfold kept, synced, dropped; simpl.
    by rewrite app_nil_r, !Nat.add_0_r.
  - simpl. unfold fetch_labels; simpl. fold (fetch_labels tid attempts).
    change (executeOperation_request (fst (operation, out)))
      with (executeOperation_request operation).
    unfold attempt_events at 1.
    unfold kept, synced, dropped, retains, drops, succeeds, executeOperation; simpl.
    destruct (executeOperation_request operation) as [e|req] eqn:Hreq.
    + unfold processQueue_catch; simpl.
      destruct (S (retries operation) <? 3) eqn:Hlt; simpl.
      * specialize (IH (remaining ++ [retried operation]) success failed
                      (emits [EvExecute tid operation] w)).
        destruct (processQueue_loop tid (List.map fst attempts)
                    (remaining ++ [retried operation]) success failed) as [evs0 k0].
        rewrite proceed_emits in IH.
        simpl in *. rewrite IH, proceed_emits. simpl.
        unfold kept, synced, dropped, retains, drops, succeeds, executeOperation.
        by rewrite <- !app_assoc.
      * specialize (IH remaining success (S failed)
                      (emits [EvExecute tid operation;
                              EvConsole (LogFailedAfter3 (id operation))] w)).
        destruct (processQueue_loop tid (List.map fst attempts)
                    remaining success (S failed)) as [evs0 k0].
        rewrite proceed_emits in IH.
        simpl in *. rewrite IH, proceed_emits. simpl.
        unfold kept, synced, dropped, retains, drops, succeeds, executeOperation.
        by rewrite Nat.add_succ_r.
    + simpl. rewrite lookup_insert_eq. simpl.
      unfold processQueue_fetched, processQueue_catch.
      destruct out as [status|why]; simpl.
      * specialize (IH remaining (S success) failed
                      (emits [EvExecute tid operation; EvFetch tid req;
                              EvConsole (LogSynced (type operation) (id operation))] w)).
        destruct (processQueue_loop tid (List.map fst attempts)
                    remaining (S success) failed) as [evs0 k0].
        rewrite proceed_emits in IH.
        rewrite proceed_proceed. simpl.
        simpl in *. rewrite IH, proceed_emits. simpl.
        unfold kept, synced, dropped, retains, drops, succeeds, executeOperation.
        by rewrite Nat.add_succ_r.
      * destruct (S (retries operation) <? 3) eqn:Hlt; simpl.
        -- specialize (IH (remaining ++ [retried operation]) success failed
                         (emits [EvExecute tid operation; EvFetch tid req] w)).
           destruct (processQueue_loop tid (List.map fst attempts)
                       (remaining ++ [retried operation]) success failed) as [evs0 k0].
           rewrite proceed_emits in IH.
           rewrite proceed_proceed. simpl.
           simpl in *. rewrite IH, proceed_emits. simpl.
           unfold kept, synced, dropped, retains, drops, succeeds, executeOperation.
           by rewrite <- !app_assoc.
        -- specialize (IH remaining success (S failed)
                         (emits [EvExecute tid operation; EvFetch tid req;
                                 EvConsole (LogFailedAfter3 (id operation))] w)).
           destruct (processQueue_loop tid (List.map fst attempts)
                       remaining success (S failed)) as [evs0 k0].
           rewrite proceed_emits in IH.
           rewrite proceed_proceed. simpl.
           simpl in *. rewrite IH, proceed_emits. simpl.
           unfold kept, synced, dropped, retains, drops, succeeds, executeOperation.
           by rewrite Nat.add_succ_r.
Qed.

Lemma processQueue_pass_trace (w : World) (attempts : list Attempt) :
  syncInProgress w = false ->
  isOnline w = true ->
  stored w = List.map fst attempts ->
  run (processQueue w) (pass_labels (next_task w) attempts)
  = Some (mkWorld true false (listeners w) (Some (kept attempts))
            (delete (next_task w) (tasks w)) (S (next_task w))
            (trace w ++ [EvCall (next_task w) ApiProcessQueue; EvGetItem (next_task w)]
               ++ flat_map (attempt_events (next_task w)) attempts
               ++ [EvSetItem (next_task w) (kept attempts);
                   EvSettle (next_task w)
                     (Resolved (VTally (synced attempts) (dropped attempts)))])).
Proof.
  intros Hsync Hon Hq.
  pose proof (run_loop_trace (next_task w) attempts [] 0 0
                (suspend (next_task w) ProcessGet
                   (emit (EvGetItem (next_task w))
                      (set_syncInProgress true (begin_call ApiProcessQueue w)))))
    as Hrun.
  unfold processQueue, pass_labels. simpl. rewrite Hsync, Hon. simpl.
  rewrite lookup_insert_eq. simpl.
  unfold stored in Hq. simpl. unfold stored; simpl. rewrite Hq.
  rewrite run_app, Hrun. simpl.
  rewrite lookup_insert_eq. simpl.
  unfold settle, emit, emits, set_tasks; simpl.
  rewrite !delete_insert_eq, Hon.
  by rewrite <- !app_assoc.
Qed.

Lemma requests_app (tid : nat) (tr1 tr2 : list Event) :
  requests tid (tr1 ++ tr2) = requests tid tr1 ++ requests tid tr2.
Proof. apply flat_map_app. Qed.

Lemma requests_fresh (w : World) (tid : nat) :
  wf w -> next_task w <= tid -> requests tid (trace w) = [].
Proof.
  intros Hwf Hle. pose proof (wf_trace w Hwf) as Htr.
  unfold requests. induction (trace w) as [|e tr IH]; [done|].
  simpl. rewrite IH by (intros; eapply Htr; [by right|done]).
  destruct e; try done. simpl.
  destruct (Nat.eqb_spec tid0 tid) as [->|]; [|done].
  specialize (Htr (EvFetch tid req) tid (or_introl eq_refl) eq_refl). lia.
Qed.

Lemma writes_fresh (w : World) (tid : nat) :
  wf w -> next_task w <= tid -> writes tid (trace w) = [].
Proof.
  intros Hwf Hle. pose proof (wf_trace w Hwf) as Htr.
  unfold writes. induction (trace w) as [|e tr IH]; [done|].
  simpl. rewrite IH by (intros; eapply Htr; [by right|done]).
  destruct e; try done. simpl.
  destruct (Nat.eqb_spec tid0 tid) as [->|]; [|done].
  specialize (Htr (EvSetItem tid data) tid (or_introl eq_refl) eq_refl). lia.
Qed.

Lemma requests_attempts (tid : nat) (attempts : list Attempt) :
  requests tid (flat_map (attempt_events tid) attempts) = flat_map request_of attempts.
Proof.
  induction attempts as [|a attempts IH]; [done|].
  simpl. rewrite requests_app, IH. f_equal.
  unfold attempt_events, request_of.
  destruct (executeOperation_request (fst a)) as [e|req]; simpl;
    rewrite ?Nat.eqb_refl; destruct (succeeds a), (drops a); done.
Qed.

Lemma writes_attempts (tid : nat) (attempts : list Attempt) :
  writes tid (flat_map (attempt_events tid) attempts) = [].
Proof.
  induction attempts as [|a attempts IH]; [done|].
  simpl. rewrite writes_app, IH.
  unfold attempt_events.
  destruct (executeOperation_request (fst a)) as [e|req]; simpl;
    destruct (succeeds a), (drops a); done.
Qed.

Lemma storage_calls_attempts (tid : nat) (attempts : list Attempt) :
  storage_calls (flat_map (attempt_events tid) attempts) = 0.
Proof.
  induction attempts as [|a attempts IH]; [done|].
  change (flat_map (attempt_events tid) (a :: attempts))
    with (attempt_events tid a ++ flat_map (attempt_events tid) attempts).
  rewrite storage_calls_app, IH.
  unfold attempt_events, storage_calls.
  destruct (executeOperation_request (fst a)) as [e|req]; simpl;
    destruct (succeeds a), (drops a); done.
Qed.

(** X15. The exact trace of a replay pass left alone with a working
    storage: the call, one [getItem], then for each operation of the
    snapshot in order its execution, its request if it gets that far, and
    its log line (synced, or failed after 3 retries, or none when it is
    kept for a retry); then one [setItem] of what is kept, and the
    settlement with the tally.  Nothing else is added to the trace: no
    listener is notified, no other log line is written. *)
Theorem replay_pass_exact_trace (w : World) (attempts : list Attempt) :
  syncInProgress w = false ->
  isOnline w = true ->
  stored w = List.map fst attempts ->
  exists w',
    replay_pass w attempts = Some w'
    /\ trace w'
       = trace w
           ++ [EvCall (next_task w) ApiProcessQueue; EvGetItem (next_task w)]
           ++ flat_map (attempt_events (next_task w)) attempts
           ++ [EvSetItem (next_task w) (kept attempts);
               EvSettle (next_task w)
                 (Resolved (VTally (synced attempts) (dropped attempts)))].
Proof.
  intros Hsync Hon Hq.
  eexists. split.
  - exact (processQueue_pass_trace w attempts Hsync Hon Hq).
  - reflexivity.
Qed.

Lemma replay_pass_exact_trace_witness :
  exists w',
    replay_pass (init (Some (List.map fst sample_attempts))) sample_attempts = Some w'
    /\ trace w'
       = [EvCall 0 ApiProcessQueue; EvGetItem 0]
           ++ flat_map (attempt_events 0) sample_attempts
           ++ [EvSetItem 0 (kept sample_attempts);
               EvSettle 0 (Resolved (VTally (synced sample_attempts)
                                            (dropped sample_attempts)))].
Proof.
  apply (replay_pass_exact_trace (init (Some (List.map fst sample_attempts))) sample_attempts);
    reflexivity.
Defined.

(** X16. A replay pass left alone with a working storage makes one request
    per operation that reaches its [fetch], in queue order, and none for an
    operation whose execution throws before; it makes exactly two storage
    calls, the [getItem] and one [setItem] of the whole array kept; it does
    not write the queue operation by operation. *)
Theorem pass_requests_and_storage_calls (w : World) (attempts : list Attempt) :
  ready w ->
  stored w = List.map fst attempts ->
  exists w',
    replay_pass w attempts = Some w'
    /\ requests (next_task w) (trace w') = flat_map request_of attempts
    /\ writes (next_task w) (trace w') = [kept attempts]
    /\ storage_calls (trace w') = storage_calls (trace w) + 2.
Proof.
  intros (Hreach & Hsync & Hon) Hq.
  pose proof (reachable_wf w Hreach) as Hwf.
  eexists. split; [exact (processQueue_pass_trace w attempts Hsync Hon Hq)|].
  cbn [trace]. split; [|split].
  - rewrite !requests_app, requests_attempts, (requests_fresh w) by (done || lia).
    simpl. by rewrite app_nil_r.
  - rewrite !writes_app, writes_attempts, (writes_fresh w) by (done || lia).
    simpl. by rewrite Nat.eqb_refl.
  - rewrite !storage_calls_app, storage_calls_attempts. reflexivity.
Qed.

Lemma pass_requests_and_storage_calls_witness :
  exists w',
    replay_pass (init (Some (List.map fst sample_attempts))) sample_attempts = Some w'
    /\ requests 0 (trace w') = flat_map request_of sample_attempts
    /\ writes 0 (trace w') = [kept sample_attempts]
    /\ storage_calls (trace w') = 0 + 2.
Proof.
  apply (pass_requests_and_storage_calls
           (init (Some (List.map fst sample_attempts))) sample_attempts).
  - split; [apply reachable_init | split; reflexivity].
  - reflexivity.
Defined.
